(** * VaultSafe: the [add] command and its terminal helpers

    A shallow embedding of [vaultsafe/commands/add.py] and of the helpers of
    [vaultsafe/utils/cli_utils.py] it calls, with the properties of the
    credential lifecycle stated and settled over it. *)

From Stdlib Require Import String Ascii List Bool Arith ZArith Lia Wf_nat.
Import ListNotations.
Open Scope string_scope.
Open Scope list_scope.

(** ** [vaultsafe/utils/cli_utils.py]: reading from the terminal *)

Module CliUtils.

(** The line feed used by ["\n".join(...)]. *)
Definition newline : string := String (ascii_of_nat 10) EmptyString.

(** What a function reading the standard input ends with: a value and the
    lines not yet read, or the [EOFError] that [input()] raises when no line
    is left. *)
Inductive Read (A : Type) : Type :=
| Returned (value : A) (rest : list string)
| EOFError.
Arguments Returned {A} value rest.
Arguments EOFError {A}.

(** The [while True] loop of [multiline_input].  [stdin] holds the lines
    [input()] will deliver, [lines] and [empty_line_count] are the two local
    variables.  The loop is left by [break] (the third empty line in a row,
    which is not appended) with the value of [lines] and the unread input. *)
Fixpoint multiline_loop (stdin lines : list string) (empty_line_count : nat)
  : option (list string * list string) :=
  match stdin with
  | [] => None
  | line :: rest =>
      if (line =? "")%string then
        let empty_line_count := S empty_line_count in
        if (empty_line_count =? 3)%nat then Some (lines, rest)
        else multiline_loop rest (lines ++ [line]) empty_line_count
      else multiline_loop rest (lines ++ [line]) 0
  end.

(** The slice [lines[:-2]]: everything but the last two elements, nothing
    when there are fewer than two. *)
Definition drop_last_two {A : Type} (lines : list A) : list A :=
  firstn (length lines - 2) lines.

Definition multiline_input (stdin : list string) : Read string :=
  match multiline_loop stdin [] 0 with
  | Some (lines, rest) =>
      Returned (String.concat newline (drop_last_two lines)) rest
  | None => EOFError
  end.

(** Three consecutive empty lines of [l] start at position [i]. *)
Definition triple_empty_at (l : list string) (i : nat) : Prop :=
  nth_error l i = Some "" /\
  nth_error l (S i) = Some "" /\
  nth_error l (S (S i)) = Some "".

End CliUtils.

(** ** The store, the collaborators and the command monad *)

(** The rows of [vaultsafe.db.models].  A ciphertext column holds [None]
    (SQL NULL) or the token returned by [encrypt]. *)
Module Credential.
Record t : Type := Build {
  name : string;
  url : option string;
  username : option string;
  password : option string;
  encrypted_key : string;
  token : option string;
  recovery_key : option string;
  primary_email : option string;
  secondary_email : option string;
  notes : option string
}.
End Credential.

Module Mnemonic.
Record t : Type := Build {
  name : string;
  credential_id : nat
}.
End Mnemonic.

(** The optional fields of a credential, in the order [add] asks for them. *)
Inductive Field : Type :=
| Username | Password | Url | PrimaryEmail | SecondaryEmail
| Token | RecoveryKey | Notes.

Definition Field_eq_dec (f g : Field) : {f = g} + {f <> g}.
Proof. decide equality. Defined.

(** The ciphertext column of a credential that stores a given field. *)
Definition column (c : Credential.t) (f : Field) : option string :=
  match f with
  | Username => Credential.username c
  | Password => Credential.password c
  | Url => Credential.url c
  | PrimaryEmail => Credential.primary_email c
  | SecondaryEmail => Credential.secondary_email c
  | Token => Credential.token c
  | RecoveryKey => Credential.recovery_key c
  | Notes => Credential.notes c
  end.

(** The committed content of the vault: the [credential] table, each row
    with the id the store gave it, and the [mnemonic] table. *)
Record DB : Type := {
  credential_rows : list (nat * Credential.t);
  mnemonic_rows : list Mnemonic.t
}.

Definition empty_db : DB := {| credential_rows := []; mnemonic_rows := [] |}.

(** Membership of a string in a collection of strings (Python's [in] on a
    set of names, SQL's [IN] on a tuple of names). *)
Definition mem (s : string) (l : list string) : bool :=
  existsb (String.eqb s) l.

Definition mnemonic_names (db : DB) : list string :=
  map Mnemonic.name (mnemonic_rows db).

(** [session.query(Mnemonic.name).filter(Mnemonic.name.in_(names)).all()] *)
Definition query_mnemonics_in (db : DB) (names : list string)
  : list Mnemonic.t :=
  filter (fun row => mem (Mnemonic.name row) names) (mnemonic_rows db).

(** Modelled from the spec: the declaration of the [mnemonic] table
    ([vaultsafe/db/models.py]) and the store behind [session.commit()] lie
    outside the code embedded here.  Section 6 of the specification gives
    the alias column as globally unique and the store as enforcing unique
    constraints with atomic multi-row transactions.  So: the pending
    mnemonic rows are flushed one INSERT each inside one transaction, [unique]
    says whether the column is declared unique, and [None] is the transaction
    rolled back on a violated constraint. *)
Fixpoint insert_mnemonics (unique : bool) (table rows : list Mnemonic.t)
  : option (list Mnemonic.t) :=
  match rows with
  | [] => Some table
  | row :: rows' =>
      if unique && mem (Mnemonic.name row) (map Mnemonic.name table)
      then None
      else insert_mnemonics unique (table ++ [row]) rows'
  end.

(** What [add] imports from modules outside the code embedded here.

    From [vaultsafe.utils.crypto_utils]: [derive_vault_key],
    [generate_fernet_key] and [encrypt].  The random source is a sequence of
    draws: [generate_fernet_key n] is the key sampled at draw [n],
    [encrypt n data key] the token built with the nonce of draw [n].

    From [vaultsafe.db.models]: whether the [name] column of the [mnemonic]
    table is declared unique, and the id a new credential row gets in a
    given content of the store.

    From [vaultsafe.utils.auth_utils]: whether a typed master password
    passes the verification against what the vault stored when it was
    initialised. *)
Class Collaborators : Type := {
  derive_vault_key : string -> string;
  generate_fernet_key : nat -> string;
  encrypt : nat -> string -> string -> string;
  mnemonic_name_unique : bool;
  next_id : DB -> nat;
  master_passwd_ok : string -> bool
}.

(** Flushing one new credential row; the id is what the ORM object carries
    afterwards. *)
Definition insert_credential {C : Collaborators} (db : DB)
  (c : Credential.t) : nat * DB :=
  let cid := next_id db in
  (cid, {| credential_rows := credential_rows db ++ [(cid, c)];
           mnemonic_rows := mnemonic_rows db |}).

(** What [add] shows on the console and does to the store, in order. *)
Inductive Event : Type :=
| BasicInfo
| NoVaultPanel
| InitHint
| Rule
| MasterPasswordPrompt
| Prompt (f : Field)
| AddedPanel (f : Field)
| MnemonicExistsNote (mnemonic : string)
| Commit (committed : DB)
| SuccessPanel (name : string)
| PrintOnScreen (cid : nat).

(** The exceptions that escape [add]: [EOFError] from [multiline_input],
    the error of a commit the store turns down, [click.Abort] from
    [click.prompt], and the error of a master password that does not pass
    the verification. *)
Inductive Exn : Type :=
| EOF
| IntegrityError
| Abort
| AuthenticationError.

(** How a command ends: it returns, the process exits with a status
    ([sys.exit]), or an exception escapes. *)
Inductive Result (A : Type) : Type :=
| Ok (a : A)
| Exit (status : Z)
| Raise (e : Exn).
Arguments Ok {A} a.
Arguments Exit {A} status.
Arguments Raise {A} e.

(** The state a command runs in: whether the file at [DATABASE_PATH] exists,
    the committed content of the store, and the position of the random
    source. *)
Record World : Type := {
  db_exists : bool;
  db : DB;
  entropy : nat
}.

Record Run (A : Type) : Type := {
  result : Result A;
  final : World;
  events : list Event
}.
Arguments result {A} _.
Arguments final {A} _.
Arguments events {A} _.

Definition M (A : Type) : Type := World -> Run A.

Definition ret {A : Type} (a : A) : M A :=
  fun w => {| result := Ok a; final := w; events := [] |}.

Definition bind {A B : Type} (m : M A) (k : A -> M B) : M B :=
  fun w =>
    let r := m w in
    match result r with
    | Ok a =>
        let r' := k a (final r) in
        {| result := result r'; final := final r';
           events := events r ++ events r' |}
    | Exit status =>
        {| result := Exit status; final := final r; events := events r |}
    | Raise e =>
        {| result := Raise e; final := final r; events := events r |}
    end.

Notation "x <- m ;; k" := (bind m (fun x => k))
  (at level 61, m at next level, right associativity).
Notation "m ;; k" := (bind m (fun _ => k))
  (at level 61, right associativity).

Definition emit (e : Event) : M unit :=
  fun w => {| result := Ok tt; final := w; events := [e] |}.

Definition sys_exit {A : Type} (status : Z) : M A :=
  fun w => {| result := Exit status; final := w; events := [] |}.

Definition raise {A : Type} (e : Exn) : M A :=
  fun w => {| result := Raise e; final := w; events := [] |}.

Definition get_db : M DB :=
  fun w => {| result := Ok (db w); final := w; events := [] |}.

(** [session.commit()] that went through: the store holds [db'] from now
    on. *)
Definition commit (db' : DB) : M unit :=
  fun w => {| result := Ok tt;
              final := {| db_exists := db_exists w; db := db';
                          entropy := entropy w |};
              events := [Commit db'] |}.

(** One draw from the random source. *)
Definition draw : M nat :=
  fun w => {| result := Ok (entropy w);
              final := {| db_exists := db_exists w; db := db w;
                          entropy := S (entropy w) |};
              events := [] |}.

(** ** [vaultsafe/commands/add.py] *)

(** The options of the command line: [name], [mnemonics] (a tuple, in the
    order given, repetitions kept) and one flag per optional field. *)
Record Request : Type := {
  opt_name : string;
  opt_mnemonics : list string;
  opt_username : bool;
  opt_password : bool;
  opt_recovery_key : bool;
  opt_url : bool;
  opt_primary_email : bool;
  opt_secondary_email : bool;
  opt_token : bool;
  opt_notes : bool
}.

Definition flag (req : Request) (f : Field) : bool :=
  match f with
  | Username => opt_username req
  | Password => opt_password req
  | Url => opt_url req
  | PrimaryEmail => opt_primary_email req
  | SecondaryEmail => opt_secondary_email req
  | Token => opt_token req
  | RecoveryKey => opt_recovery_key req
  | Notes => opt_notes req
  end.

(** What the person at the terminal enters: the master password typed at
    [input_master_passwd_and_verify]; the value each single prompt
    ([click.prompt], [get_password]) returns for its field when it returns;
    the lines of input that are left when the notes, the last prompt, are
    asked for; and whether the input ends or is interrupted at the
    [click.prompt] of a field. *)
Record Terminal : Type := {
  master_passwd : string;
  answer : Field -> string;
  stdin : list string;
  ends_at : Field -> bool
}.

(** The value of a field variable once the prompts are over: still the
    flag [False], or the string the prompt returned. *)
Inductive FieldVal : Type :=
| NotRequested
| Entered (s : string).

(** Python's truth value: [False] and [''] are false. *)
Definition truthy (v : FieldVal) : bool :=
  match v with
  | NotRequested => false
  | Entered s => negb (s =? "")%string
  end.

(** The string handed to [encrypt], which is called on true values only. *)
Definition plaintext (v : FieldVal) : string :=
  match v with
  | NotRequested => ""
  | Entered s => s
  end.

Definition check_db_init : M bool :=
  fun w => {| result := Ok (db_exists w); final := w; events := [] |}.

Definition assert_db_init : M unit :=
  initialised <- check_db_init ;;
  if negb initialised
  then emit NoVaultPanel ;; emit InitHint ;; sys_exit 1%Z
  else ret tt.

Definition print_basic_info : M unit := emit BasicInfo.

(** Modelled from the spec: [input_master_passwd_and_verify] is defined in
    [vaultsafe.utils.auth_utils], outside the code embedded here.  Sections
    4.1 and 4.5 of the specification: the master password is asked for and
    verified against what the vault stored at its initialisation, and a
    failed verification yields an AuthenticationError; the operation goes
    on with the password only when the verification passes. *)
Definition input_master_passwd_and_verify {C : Collaborators}
  (tty : Terminal) : M string :=
  emit MasterPasswordPrompt ;;
  if master_passwd_ok (master_passwd tty)
  then ret (master_passwd tty)
  else raise AuthenticationError.

(** [click.prompt(..., default='')]: the prompt is shown and a line is read.
    An empty entry gives the default; when the input ends or is interrupted
    there, [click.prompt] raises [Abort]. *)
Definition click_prompt (tty : Terminal) (f : Field) : M string :=
  emit (Prompt f) ;;
  if ends_at tty f then raise Abort else ret (answer tty f).

(** Modelled from the spec: [get_password] is defined in
    [vaultsafe.utils.auth_utils], outside the code embedded here.  Section 9
    of the specification has the prompt for a sensitive value yield a
    plaintext string to the core; it is taken by the prompt it shows and
    the string it yields. *)
Definition get_password (tty : Terminal) (f : Field) : M string :=
  emit (Prompt f) ;; ret (answer tty f).

(** [multiline_input(...)] on the lines typed at the terminal. *)
Definition prompt_notes (tty : Terminal) : M string :=
  emit (Prompt Notes) ;;
  match CliUtils.multiline_input (stdin tty) with
  | CliUtils.Returned text _ => ret text
  | CliUtils.EOFError => raise EOF
  end.

(** [if x: x = ask(...)] *)
Definition when_flag (x : bool) (ask : M string) : M FieldVal :=
  if x then s <- ask ;; ret (Entered s) else ret NotRequested.

Section Add.
Context {C : Collaborators}.

(** Lines 72-110: the prompts, one per flag given.  The result maps each
    field to the value its variable holds afterwards. *)
Definition prompt_fields (req : Request) (tty : Terminal)
  : M (Field -> FieldVal) :=
  username <- when_flag (opt_username req) (click_prompt tty Username) ;;
  password <-
    when_flag (opt_password req)
      (entry <- get_password tty Password ;;
       emit (AddedPanel Password) ;; ret entry) ;;
  url <- when_flag (opt_url req) (click_prompt tty Url) ;;
  primary_email <-
    when_flag (opt_primary_email req) (click_prompt tty PrimaryEmail) ;;
  secondary_email <-
    when_flag (opt_secondary_email req) (click_prompt tty SecondaryEmail) ;;
  token <-
    when_flag (opt_token req)
      (entry <- get_password tty Token ;;
       emit (AddedPanel Token) ;; ret entry) ;;
  recovery_key <-
    when_flag (opt_recovery_key req)
      (entry <- get_password tty RecoveryKey ;;
       emit (AddedPanel RecoveryKey) ;; ret entry) ;;
  notes <- when_flag (opt_notes req) (prompt_notes tty) ;;
  ret (fun f =>
         match f with
         | Username => username
         | Password => password
         | Url => url
         | PrimaryEmail => primary_email
         | SecondaryEmail => secondary_email
         | Token => token
         | RecoveryKey => recovery_key
         | Notes => notes
         end).

(** [encrypt(data, key)], with the nonce of the next draw. *)
Definition encrypt_call (data key : string) : M string :=
  n <- draw ;; ret (encrypt n data key).

(** [encrypt(x, credential_key) if x else None] *)
Definition encrypt_if (x : FieldVal) (credential_key : string)
  : M (option string) :=
  if truthy x
  then c <- encrypt_call (plaintext x) credential_key ;; ret (Some c)
  else ret None.

(** Lines 112-142: the vault key, the new credential key, the ciphertexts
    and the [Credential] object. *)
Definition encrypt_credentials (name master_passwd : string)
  (val : Field -> FieldVal) : M Credential.t :=
  let vault_key := derive_vault_key master_passwd in
  key_draw <- draw ;;
  let credential_key := generate_fernet_key key_draw in
  encrypted_username <- encrypt_if (val Username) credential_key ;;
  encrypted_password <- encrypt_if (val Password) credential_key ;;
  encrypted_url <- encrypt_if (val Url) credential_key ;;
  encrypted_recovery_key <- encrypt_if (val RecoveryKey) credential_key ;;
  encrypted_primary_email <- encrypt_if (val PrimaryEmail) credential_key ;;
  encrypted_secondary_email <-
    encrypt_if (val SecondaryEmail) credential_key ;;
  encrypted_token <- encrypt_if (val Token) credential_key ;;
  encrypted_notes <- encrypt_if (val Notes) credential_key ;;
  encrypted_credential_key <- encrypt_call credential_key vault_key ;;
  ret {| Credential.name := name;
         Credential.url := encrypted_url;
         Credential.username := encrypted_username;
         Credential.password := encrypted_password;
         Credential.encrypted_key := encrypted_credential_key;
         Credential.token := encrypted_token;
         Credential.recovery_key := encrypted_recovery_key;
         Credential.primary_email := encrypted_primary_email;
         Credential.secondary_email := encrypted_secondary_email;
         Credential.notes := encrypted_notes |}.

(** The [for] loop of lines 148-151: the first requested mnemonic found
    among the existing names, at which [add] returns. *)
Fixpoint first_existing (mnemonics existing_mnemonic_names : list string)
  : option string :=
  match mnemonics with
  | [] => None
  | mnemonic :: rest =>
      if mem mnemonic existing_mnemonic_names then Some mnemonic
      else first_existing rest existing_mnemonic_names
  end.

(** Lines 145-151 on a given content of the store. *)
Definition check_mnemonics (now : DB) (mnemonics : list string)
  : option string :=
  let existing_mnemonics := query_mnemonics_in now mnemonics in
  let existing_mnemonic_names := map Mnemonic.name existing_mnemonics in
  first_existing mnemonics existing_mnemonic_names.

(** The rows the loop of lines 158-160 hands to the session. *)
Definition pending_mnemonics (mnemonics : list string) (cid : nat)
  : list Mnemonic.t :=
  map (fun mnemonic => Mnemonic.Build mnemonic cid) mnemonics.

(** The flush of the pending mnemonic rows on a given content of the
    store. *)
Definition flush_mnemonics (now : DB) (mnemonics : list string) (cid : nat)
  : option DB :=
  match insert_mnemonics mnemonic_name_unique (mnemonic_rows now)
          (pending_mnemonics mnemonics cid) with
  | Some table =>
      Some {| credential_rows := credential_rows now; mnemonic_rows := table |}
  | None => None
  end.

(** [session.add(credential); session.commit()] *)
Definition add_credential (credential : Credential.t) : M nat :=
  now <- get_db ;;
  let (cid, db') := insert_credential now credential in
  commit db' ;; ret cid.

(** The loop of [session.add(Mnemonic(name=mnemonic, credential=credential))]
    followed by [session.commit()]. *)
Definition add_mnemonics (mnemonics : list string) (cid : nat) : M unit :=
  now <- get_db ;;
  match flush_mnemonics now mnemonics cid with
  | Some db' => commit db'
  | None => raise IntegrityError
  end.

(** Lines 144-167: the check of the requested mnemonics and the two
    commits. *)
Definition persist (mnemonics : list string) (credential : Credential.t)
  : M unit :=
  now <- get_db ;;
  match check_mnemonics now mnemonics with
  | Some mnemonic => emit (MnemonicExistsNote mnemonic)
  | None =>
      cid <- add_credential credential ;;
      add_mnemonics mnemonics cid ;;
      emit (SuccessPanel (Credential.name credential)) ;;
      emit (PrintOnScreen cid)
  end.

Definition add (req : Request) (tty : Terminal) : M unit :=
  print_basic_info ;;
  assert_db_init ;;
  emit Rule ;;
  master_passwd <- input_master_passwd_and_verify tty ;;
  val <- prompt_fields req tty ;;
  credential <- encrypt_credentials (opt_name req) master_passwd val ;;
  persist (opt_mnemonics req) credential.

(** Several invocations of the command, one after the other. *)
Fixpoint adds (calls : list (Request * Terminal)) (w : World)
  : list Event * World :=
  match calls with
  | [] => ([], w)
  | (req, tty) :: rest =>
      let r := add req tty w in
      let (evs, w') := adds rest (final r) in
      (events r ++ evs, w')
  end.

End Add.

(** The contents of the store that [session.commit()] made visible, in
    order. *)
Fixpoint committed (evs : list Event) : list DB :=
  match evs with
  | [] => []
  | Commit d :: rest => d :: committed rest
  | _ :: rest => committed rest
  end.

(** No two rows of the [mnemonic] table carry the same alias. *)
Definition alias_unique (d : DB) : Prop := NoDup (mnemonic_names d).

(** The value a field variable holds after the prompts. *)
Definition entered (req : Request) (tty : Terminal) (text : string)
  (f : Field) : FieldVal :=
  if flag req f
  then Entered (match f with Notes => text | _ => answer tty f end)
  else NotRequested.

(** The fields asked for with [click.prompt]. *)
Definition is_click (f : Field) : bool :=
  match f with
  | Username | Url | PrimaryEmail | SecondaryEmail => true
  | Password | Token | RecoveryKey | Notes => false
  end.

(** Every [click.prompt] of the request gets its line: the input does not
    end at the prompt of a flagged field. *)
Definition answered (req : Request) (tty : Terminal) : Prop :=
  forall f, flag req f = true -> is_click f = true -> ends_at tty f = false.

(** The input ends at the [click.prompt] of some flagged field. *)
Definition cut_short (req : Request) (tty : Terminal) : Prop :=
  exists f, flag req f = true /\ is_click f = true /\ ends_at tty f = true.

(** The text [multiline_input] returns for the lines typed, if the input
    lasts long enough. *)
Definition notes_text (tty : Terminal) : option string :=
  match CliUtils.multiline_input (stdin tty) with
  | CliUtils.Returned text _ => Some text
  | CliUtils.EOFError => None
  end.

(** What the prompt of a field returns. *)
Definition prompted (tty : Terminal) (f : Field) : option string :=
  match f with
  | Notes => notes_text tty
  | _ => Some (answer tty f)
  end.

(** A credential row that is in the store afterwards and was not before. *)
Definition created (before after : DB) (row : nat * Credential.t) : Prop :=
  In row (credential_rows after) /\ ~ In row (credential_rows before).

(** A content of the store that shows a new credential whole: its row and
    a row for each requested mnemonic, added to what was there. *)
Definition whole_credential (before d : DB) (mnemonics : list string)
  : Prop :=
  exists cid c,
    credential_rows d = credential_rows before ++ [(cid, c)] /\
    mnemonic_rows d = mnemonic_rows before ++ pending_mnemonics mnemonics cid.

(** The requested mnemonics that are already in the store. *)
Definition offending (d : DB) (mnemonics : list string) : list string :=
  filter (fun m => mem m (mnemonic_names d)) mnemonics.

(** A run with more events in front. *)
Definition prepend {A : Type} (evs : list Event) (r : Run A) : Run A :=
  {| result := result r; final := final r; events := evs ++ events r |}.

Definition set_entropy (w : World) (n : nat) : World :=
  {| db_exists := db_exists w; db := db w; entropy := n |}.

Definition set_db (w : World) (d : DB) : World :=
  {| db_exists := db_exists w; db := d; entropy := entropy w |}.

(** The events of the prompts. *)
Definition is_prompt_event (e : Event) : bool :=
  match e with
  | Prompt _ | AddedPanel _ => true
  | _ => false
  end.

(** A command that leaves the state as it is and shows prompts only. *)
Definition quiet {A : Type} (m : M A) : Prop :=
  forall w,
    final (m w) = w /\ forallb is_prompt_event (events (m w)) = true.

Section Reading.
Context {C : Collaborators}.

(** What [encrypt_if] computes at position [n] of the random source: the
    column, and the position afterwards. *)
Definition seal_field (n : nat) (x : FieldVal) (key : string)
  : option string * nat :=
  if truthy x then (Some (encrypt n (plaintext x) key), S n) else (None, n).

(** A column stores the value [x] of a field: nothing when [x] is false,
    else the encryption of [x] under [key] with a nonce drawn after
    position [lo] and before position [hi]. *)
Definition column_seals (col : option string) (x : FieldVal) (key : string)
  (lo hi : nat) : Prop :=
  if truthy x
  then exists n, lo < n < hi /\ col = Some (encrypt n (plaintext x) key)
  else col = None.

(** The ways an invocation goes, up to the check of the mnemonics. *)
Inductive AddCase (req : Request) (tty : Terminal) (w : World) : Prop :=
| NoVault :
    db_exists w = false ->
    add req tty w =
      {| result := Exit 1%Z; final := w;
         events := [BasicInfo; NoVaultPanel; InitHint] |} ->
    AddCase req tty w
| Refused :
    db_exists w = true ->
    master_passwd_ok (master_passwd tty) = false ->
    add req tty w =
      {| result := Raise AuthenticationError; final := w;
         events := [BasicInfo; Rule; MasterPasswordPrompt] |} ->
    AddCase req tty w
| PromptAborted (pevs : list Event) :
    db_exists w = true ->
    master_passwd_ok (master_passwd tty) = true ->
    cut_short req tty ->
    forallb is_prompt_event pevs = true ->
    add req tty w =
      {| result := Raise Abort; final := w;
         events := [BasicInfo; Rule; MasterPasswordPrompt] ++ pevs |} ->
    AddCase req tty w
| NotesCutShort (pevs : list Event) :
    db_exists w = true ->
    master_passwd_ok (master_passwd tty) = true ->
    answered req tty ->
    opt_notes req = true -> notes_text tty = None ->
    forallb is_prompt_event pevs = true ->
    add req tty w =
      {| result := Raise EOF; final := w;
         events := [BasicInfo; Rule; MasterPasswordPrompt] ++ pevs |} ->
    AddCase req tty w
| ReachesCheck (text : string) (val : Field -> FieldVal) (pevs : list Event)
    (c : Credential.t) (n' : nat) :
    db_exists w = true ->
    master_passwd_ok (master_passwd tty) = true ->
    answered req tty ->
    (opt_notes req = true -> notes_text tty = Some text) ->
    (forall f, val f = entered req tty text f) ->
    forallb is_prompt_event pevs = true ->
    encrypt_credentials (opt_name req) (master_passwd tty) val w =
      {| result := Ok c; final := set_entropy w n'; events := [] |} ->
    add req tty w =
      prepend ([BasicInfo; Rule; MasterPasswordPrompt] ++ pevs)
        (persist (opt_mnemonics req) c (set_entropy w n')) ->
    AddCase req tty w.

(** What an invocation does to the store: nothing, or the commits of the
    credential built by [encrypt_credentials]. *)
Inductive StoreEffect (req : Request) (tty : Terminal) (w : World) : Prop :=
| Untouched :
    committed (events (add req tty w)) = [] ->
    final (add req tty w) = w \/
      (exists n', final (add req tty w) = set_entropy w n') ->
    (forall name, ~ In (SuccessPanel name) (events (add req tty w))) ->
    StoreEffect req tty w
| Written (text : string) (val : Field -> FieldVal) (c : Credential.t)
    (n' : nat) :
    db_exists w = true ->
    master_passwd_ok (master_passwd tty) = true ->
    answered req tty ->
    (opt_notes req = true -> notes_text tty = Some text) ->
    (forall f, val f = entered req tty text f) ->
    encrypt_credentials (opt_name req) (master_passwd tty) val w =
      {| result := Ok c; final := set_entropy w n'; events := [] |} ->
    check_mnemonics (db w) (opt_mnemonics req) = None ->
    (forall d1 d2,
       d1 = snd (insert_credential (db w) c) ->
       flush_mnemonics d1 (opt_mnemonics req) (next_id (db w)) = Some d2 ->
       committed (events (add req tty w)) = [d1; d2] /\
       final (add req tty w) = set_db (set_entropy w n') d2 /\
       result (add req tty w) = Ok tt) ->
    (forall d1,
       d1 = snd (insert_credential (db w) c) ->
       flush_mnemonics d1 (opt_mnemonics req) (next_id (db w)) = None ->
       committed (events (add req tty w)) = [d1] /\
       final (add req tty w) = set_db (set_entropy w n') d1 /\
       result (add req tty w) = Raise IntegrityError) ->
    StoreEffect req tty w.

(** The credential and its mnemonics are persisted as one unit: every
    content of the store an invocation commits shows either nothing of the
    new credential or all of it. *)
Definition add_all_or_nothing (req : Request) (tty : Terminal) (w : World)
  : Prop :=
  forall d, In d (committed (events (add req tty w))) ->
            d = db w \/ whole_credential (db w) d (opt_mnemonics req).


End Reading.

(** ** Two invocations of [add] on one store *)

(** Each of two processes runs [add]; the store serves one operation at a
    time.  An invocation touches the store three times, each an operation
    of its own: the query of line 145, the commit of line 155 and the
    commit of line 162.  A stage says which of them comes next, or how the
    invocation ended. *)
Inductive Stage : Type :=
| AtCheck
| AtAddCredential
| AtAddMnemonics (cid : nat)
| Skipped (mnemonic : string)
| Failed (cid : nat)
| Succeeded (cid : nat).

(** What an invocation brings to the store once the prompts are over. *)
Record Job : Type := {
  job_mnemonics : list string;
  job_credential : Credential.t
}.

Inductive Who : Type := Left | Right.

Record Sys : Type := {
  store : DB;
  stage_left : Stage;
  stage_right : Stage
}.

Definition stage_terminal (st : Stage) : bool :=
  match st with
  | Skipped _ | Failed _ | Succeeded _ => true
  | AtCheck | AtAddCredential | AtAddMnemonics _ => false
  end.

Section Interleaving.
Context {C : Collaborators}.

(** The next operation of one invocation on the current content of the
    store. *)
Definition stage_step (job : Job) (st : Stage) (now : DB) : Stage * DB :=
  match st with
  | AtCheck =>
      match check_mnemonics now (job_mnemonics job) with
      | Some mnemonic => (Skipped mnemonic, now)
      | None => (AtAddCredential, now)
      end
  | AtAddCredential =>
      let (cid, db') := insert_credential now (job_credential job) in
      (AtAddMnemonics cid, db')
  | AtAddMnemonics cid =>
      match flush_mnemonics now (job_mnemonics job) cid with
      | Some db' => (Succeeded cid, db')
      | None => (Failed cid, now)
      end
  | Skipped _ | Failed _ | Succeeded _ => (st, now)
  end.

Definition sys_step (jl jr : Job) (who : Who) (s : Sys) : Sys :=
  match who with
  | Left =>
      let (st, d) := stage_step jl (stage_left s) (store s) in
      {| store := d; stage_left := st; stage_right := stage_right s |}
  | Right =>
      let (st, d) := stage_step jr (stage_right s) (store s) in
      {| store := d; stage_left := stage_left s; stage_right := st |}
  end.

(** The system after the store has served the processes in the order of
    [schedule]. *)
Fixpoint run_schedule (jl jr : Job) (schedule : list Who) (s : Sys) : Sys :=
  match schedule with
  | [] => s
  | who :: rest => run_schedule jl jr rest (sys_step jl jr who s)
  end.

Definition start (d : DB) : Sys :=
  {| store := d; stage_left := AtCheck; stage_right := AtCheck |}.

Definition finished (s : Sys) : bool :=
  stage_terminal (stage_left s) && stage_terminal (stage_right s).

(** One invocation after the other. *)
Definition left_then_right : list Who :=
  [Left; Left; Left; Right; Right; Right].

Definition right_then_left : list Who :=
  [Right; Right; Right; Left; Left; Left].

(** The check and the inserts of an invocation behave as one atomic unit:
    whatever the order in which the store serves two invocations, they end
    as if one had run entirely before the other. *)
Definition registration_atomic (jl jr : Job) (d : DB) : Prop :=
  forall schedule,
    finished (run_schedule jl jr schedule (start d)) = true ->
    run_schedule jl jr schedule (start d)
      = run_schedule jl jr left_then_right (start d) \/
    run_schedule jl jr schedule (start d)
      = run_schedule jl jr right_then_left (start d).

(** What holds of the system whatever the order of the operations, when
    the alias column is unique. *)
Record Safe (jl jr : Job) (s : Sys) : Prop := {
  safe_unique : alias_unique (store s);
  safe_left : forall cid, stage_left s = Succeeded cid ->
    forall m, In m (job_mnemonics jl) -> In m (mnemonic_names (store s));
  safe_right : forall cid, stage_right s = Succeeded cid ->
    forall m, In m (job_mnemonics jr) -> In m (mnemonic_names (store s));
  safe_apart : forall cl cr,
    stage_left s = Succeeded cl -> stage_right s = Succeeded cr ->
    forall m, In m (job_mnemonics jl) -> ~ In m (job_mnemonics jr)
}.

End Interleaving.

(** ** Further notions about runs and stores *)

(** The optional fields in the order in which [add] asks for them. *)
Definition prompt_order : list Field :=
  [Username; Password; Url; PrimaryEmail; SecondaryEmail;
   Token; RecoveryKey; Notes].

(** The fields asked for in a run, in order. *)
Fixpoint prompts (evs : list Event) : list Field :=
  match evs with
  | [] => []
  | Prompt f :: rest => f :: prompts rest
  | _ :: rest => prompts rest
  end.

(** The number of fields whose value is true, those [encrypt] is called
    on. *)
Definition present (val : Field -> FieldVal) : nat :=
  length (filter (fun f => truthy (val f)) prompt_order).

(** Every mnemonic row points to a credential row of the store. *)
Definition referential (d : DB) : Prop :=
  forall row, In row (mnemonic_rows d) ->
    In (Mnemonic.credential_id row) (map fst (credential_rows d)).

(** [d'] is [d] with rows added at the end of its tables, the rows of [d]
    being left as they are. *)
Definition extends (d d' : DB) : Prop :=
  (exists cs, credential_rows d' = credential_rows d ++ cs) /\
  (exists ms, mnemonic_rows d' = mnemonic_rows d ++ ms).

(** An invocation that has neither returned at the check nor failed at the
    flush. *)
Definition running (st : Stage) : Prop :=
  match st with
  | Skipped _ | Failed _ => False
  | _ => True
  end.

Definition succeeded (st : Stage) : bool :=
  match st with
  | Succeeded _ => true
  | _ => false
  end.

(** What holds of two invocations whose mnemonics are new and have nothing
    in common, whatever the order of their operations: the aliases in the
    store are those of the start and those of the invocations that have
    succeeded, and neither invocation has been turned down. *)
Record Unhindered (jl jr : Job) (d0 : DB) (s : Sys) : Prop := {
  un_names : forall x, In x (mnemonic_names (store s)) ->
    In x (mnemonic_names d0) \/
    (succeeded (stage_left s) = true /\ In x (job_mnemonics jl)) \/
    (succeeded (stage_right s) = true /\ In x (job_mnemonics jr));
  un_left : running (stage_left s);
  un_right : running (stage_right s);
  un_left_done : succeeded (stage_left s) = true ->
    forall m, In m (job_mnemonics jl) -> In m (mnemonic_names (store s));
  un_right_done : succeeded (stage_right s) = true ->
    forall m, In m (job_mnemonics jr) -> In m (mnemonic_names (store s))
}.

(** ** Concrete collaborators and inputs *)

Module Sample.

Fixpoint ticks (n : nat) : string :=
  match n with
  | O => ""
  | S n' => ("'" ++ ticks n')%string
  end.

(** Transparent stand-ins: a key names its draw, a token shows the nonce,
    the key and the data it was built from, ids count up, and the vault
    opens with the master password of the scenario of the specification. *)
Definition collaborators (unique : bool) : Collaborators := {|
  derive_vault_key := fun pw => ("vk(" ++ pw ++ ")")%string;
  generate_fernet_key := fun n => ("key" ++ ticks n)%string;
  encrypt := fun n data key =>
    ("enc" ++ ticks n ++ "[" ++ key ++ "](" ++ data ++ ")")%string;
  mnemonic_name_unique := unique;
  next_id := fun d => S (list_max (map fst (credential_rows d)));
  master_passwd_ok := fun pw => (pw =? "Secret123")%string
|}.

(** The alias column declared unique, and not. *)
Definition strict : Collaborators := collaborators true.
Definition lax : Collaborators := collaborators false.

Definition request (name : string) (mnemonics : list string)
  (fields : list Field) : Request :=
  let given f :=
    existsb (fun g => if Field_eq_dec f g then true else false) fields in
  {| opt_name := name;
     opt_mnemonics := mnemonics;
     opt_username := given Username;
     opt_password := given Password;
     opt_recovery_key := given RecoveryKey;
     opt_url := given Url;
     opt_primary_email := given PrimaryEmail;
     opt_secondary_email := given SecondaryEmail;
     opt_token := given Token;
     opt_notes := given Notes |}.

(** A person who has a username and a password to give, leaves the other
    single prompts empty, and types two lines of notes. *)
Definition tty : Terminal := {|
  master_passwd := "Secret123";
  answer := fun f =>
    match f with
    | Username => "me"
    | Password => "hunter2"
    | _ => ""
    end;
  stdin := ["line1"; ""; "line2"; ""; ""; ""; "unread"];
  ends_at := fun _ => false
|}.

(** The same person with a wrong master password. *)
Definition wrong_tty : Terminal := {|
  master_passwd := "guess";
  answer := answer tty;
  stdin := stdin tty;
  ends_at := ends_at tty
|}.

(** The same person, the input ending at the prompt for the URL. *)
Definition cut_tty : Terminal := {|
  master_passwd := master_passwd tty;
  answer := answer tty;
  stdin := stdin tty;
  ends_at := fun f =>
    match f with
    | Url => true
    | _ => false
    end
|}.

Definition fresh_vault : World :=
  {| db_exists := true; db := empty_db; entropy := 0 |}.

Definition no_vault : World :=
  {| db_exists := false; db := empty_db; entropy := 0 |}.

Definition plain_credential (name : string) : Credential.t :=
  {| Credential.name := name;
     Credential.url := None;
     Credential.username := None;
     Credential.password := None;
     Credential.encrypted_key := "sealed";
     Credential.token := None;
     Credential.recovery_key := None;
     Credential.primary_email := None;
     Credential.secondary_email := None;
     Credential.notes := None |}.

(** A vault that already holds the alias g1. *)
Definition vault_g1 : World :=
  {| db_exists := true;
     db := {| credential_rows := [(1, plain_credential "Old")];
              mnemonic_rows := [Mnemonic.Build "g1" 1] |};
     entropy := 3 |}.

(** A vault that already holds the aliases g1 and g2. *)
Definition vault_g1_g2 : World :=
  {| db_exists := true;
     db := {| credential_rows := [(1, plain_credential "Old")];
              mnemonic_rows := [Mnemonic.Build "g1" 1;
                                Mnemonic.Build "g2" 1] |};
     entropy := 7 |}.

Definition gmail : Request :=
  request "Gmail" ["g1"; "g2"] [Password].

Definition full : Request :=
  request "Gmail" ["g1"; "g2"] [Username; Password; Url; Notes].

(** A request that lists the same mnemonic twice. *)
Definition twice : Request := request "Twice" ["a"; "a"] [].

Definition calls : list (Request * Terminal) :=
  [(twice, tty); (gmail, tty); (full, tty)].

(** The credential row that [full] leaves in a fresh vault. *)
Definition stored_row : nat * Credential.t :=
  nth 0 (credential_rows (db (final (@add strict full tty fresh_vault))))
    (0, plain_credential "").

Definition job_of (name : string) (mnemonics : list string) : Job :=
  {| job_mnemonics := mnemonics; job_credential := plain_credential name |}.

(** The store serves the two processes in turn. *)
Definition alternate : list Who := [Left; Right; Left; Right; Left; Right].

(** The check and the first commit of each process are served together,
    the second commits last. *)
Definition flush_last : list Who := [Left; Left; Right; Right; Left; Right].

(** The lines of notes typed in [tty], and the text they make. *)
Definition typed_notes : list string := ["line1"; ""; "line2"].

Definition notes : string := String.concat CliUtils.newline typed_notes.

(** Requests that repeat no mnemonic. *)
Definition separate_calls : list (Request * Terminal) :=
  [(gmail, tty); (request "Bank" ["b1"; "g1"] [Token], tty);
   (request "Mail" ["m1"] [], tty)].

End Sample.

(** * Properties *)

(** ** [multiline_input] *)

Section MultilineInput.
Import CliUtils.

Lemma triple_shift (a : string) l i :
  triple_empty_at (a :: l) (S i) <-> triple_empty_at l i.
Proof. unfold triple_empty_at; simpl; tauto. Qed.

Lemma triple_head_nonempty (a : string) l i :
  a <> "" -> triple_empty_at (a :: l) i ->
  exists i', i = S i' /\ triple_empty_at l i'.
Proof.
  intros Ha H. destruct i as [|i'].
  - destruct H as [H _]. simpl in H. congruence.
  - exists i'. split; [reflexivity|].
    apply (proj1 (triple_shift a l i')). exact H.
Qed.

Lemma repeat_empty_snoc c (rest : list string) :
  repeat "" c ++ "" :: rest = repeat "" (S c) ++ rest.
Proof. induction c; simpl; [reflexivity|]. now rewrite IHc. Qed.

(** Behind a non-empty line that follows [c] empty ones, with [c] below
    three, the first run of three empty lines lies wholly in the rest. *)
Lemma first_triple_behind c (line : string) rest i :
  c < 3 -> line <> "" ->
  triple_empty_at (repeat "" c ++ line :: rest) i ->
  (forall j, j < i -> ~ triple_empty_at (repeat "" c ++ line :: rest) j) ->
  exists i', i = S c + i' /\ triple_empty_at rest i' /\
             (forall j, j < i' -> ~ triple_empty_at rest j).
Proof.
  intros Hc Hne Hat Hmin.
  destruct c as [|[|[|c]]]; try lia; simpl in *.
  - destruct (triple_head_nonempty _ _ _ Hne Hat) as (i' & -> & H').
    exists i'. split; [reflexivity|]. split; [exact H'|].
    intros j Hj Hj'. apply (Hmin (S j)); [lia|]. now apply triple_shift.
  - destruct i as [|i]. { destruct Hat as (_ & H & _). simpl in H. congruence. }
    apply triple_shift in Hat.
    destruct (triple_head_nonempty _ _ _ Hne Hat) as (i' & -> & H').
    exists i'. split; [reflexivity|]. split; [exact H'|].
    intros j Hj Hj'. apply (Hmin (S (S j))); [lia|].
    now apply triple_shift, triple_shift.
  - destruct i as [|i]. { destruct Hat as (_ & _ & H). simpl in H. congruence. }
    apply triple_shift in Hat.
    destruct i as [|i]. { destruct Hat as (_ & H & _). simpl in H. congruence. }
    apply triple_shift in Hat.
    destruct (triple_head_nonempty _ _ _ Hne Hat) as (i' & -> & H').
    exists i'. split; [reflexivity|]. split; [exact H'|].
    intros j Hj Hj'. apply (Hmin (S (S (S j)))); [lia|].
    now apply triple_shift, triple_shift, triple_shift.
Qed.

(** The loop, entered with [c] empty lines just read: it stops at the first
    run of three empty lines of those [c] lines followed by the input. *)
Lemma multiline_loop_first_triple stdin : forall lines c i,
  c < 3 ->
  triple_empty_at (repeat "" c ++ stdin) i ->
  (forall j, j < i -> ~ triple_empty_at (repeat "" c ++ stdin) j) ->
  multiline_loop stdin lines c
  = Some (lines ++ firstn (i + 2 - c) stdin, skipn (i + 3 - c) stdin).
Proof.
  induction stdin as [|line rest IH]; intros lines c i Hc Hat Hmin.
  - exfalso. rewrite app_nil_r in Hat. destruct Hat as (_ & _ & H).
    assert (H0 : S (S i) < length (repeat "" c)).
    { apply nth_error_Some. rewrite H. discriminate. }
    rewrite repeat_length in H0. lia.
  - cbn [multiline_loop]. destruct (String.eqb_spec line "") as [-> | Hne].
    + destruct (Nat.eqb_spec (S c) 3) as [E | E].
      * assert (c = 2) by lia. subst c.
        assert (i = 0).
        { destruct i as [|i]; [reflexivity|]. exfalso. apply (Hmin 0); [lia|].
          unfold triple_empty_at; simpl; auto. }
        subst i. simpl. now rewrite app_nil_r.
      * rewrite repeat_empty_snoc in Hat, Hmin.
        rewrite (IH (lines ++ [""]) (S c) i) by (auto; lia).
        replace (i + 2 - c) with (S (i + 2 - S c)) by lia.
        replace (i + 3 - c) with (S (i + 3 - S c)) by lia.
        cbn [firstn skipn]. rewrite <- app_assoc. reflexivity.
    + destruct (first_triple_behind c line rest i Hc Hne Hat Hmin)
        as (i' & -> & Hat' & Hmin').
      rewrite (IH (lines ++ [line]) 0 i') by (auto; lia).
      replace (S c + i' + 2 - c) with (S (i' + 2 - 0)) by lia.
      replace (S c + i' + 3 - c) with (S (i' + 3 - 0)) by lia.
      cbn [firstn skipn]. rewrite <- app_assoc. reflexivity.
Qed.

Lemma multiline_input_at_first_triple stdin i :
  triple_empty_at stdin i ->
  (forall j, j < i -> ~ triple_empty_at stdin j) ->
  multiline_input stdin
  = Returned (String.concat newline (firstn i stdin)) (skipn (i + 3) stdin).
Proof.
  intros Hat Hmin. unfold multiline_input.
  rewrite (multiline_loop_first_triple stdin [] 0 i) by (auto; lia).
  simpl. rewrite !Nat.sub_0_r. unfold drop_last_two.
  assert (Hlen : S (S i) < length stdin).
  { apply nth_error_Some. destruct Hat as (_ & _ & ->). discriminate. }
  rewrite length_firstn, firstn_firstn.
  replace (Nat.min (Nat.min (i + 2) (length stdin) - 2) (i + 2)) with i by lia.
  reflexivity.
Qed.

Lemma empty_line_dec (l : list string) (i : nat) :
  nth_error l i = Some "" \/ nth_error l i <> Some "".
Proof.
  destruct (nth_error l i) as [s|]; [|right; discriminate].
  destruct (string_dec s "") as [-> | Hne]; [now left | right; congruence].
Qed.

Lemma triple_empty_at_dec l i :
  triple_empty_at l i \/ ~ triple_empty_at l i.
Proof.
  unfold triple_empty_at.
  destruct (empty_line_dec l i), (empty_line_dec l (S i)),
    (empty_line_dec l (S (S i))); tauto.
Qed.

Lemma first_triple_exists l k :
  triple_empty_at l k ->
  exists i, triple_empty_at l i /\ forall j, j < i -> ~ triple_empty_at l j.
Proof.
  intros Hk.
  destruct (dec_inh_nat_subset_has_unique_least_element
              (triple_empty_at l) (triple_empty_at_dec l)
              (ex_intro _ k Hk)) as (i & (Hi & Hleast) & _).
  exists i. split; [assumption|].
  intros j Hj Hat. apply Hleast in Hat. lia.
Qed.

(** C9.  On input lines that contain three consecutive empty lines,
    [multiline_input] returns: it stops at the first such run, at position
    [i], having read exactly the [i + 3] lines up to its end, and its result
    is the [i] lines before the run joined with newlines, so none of the
    three empty lines that end the input is part of it. *)
Theorem multiline_input_stops_at_first_triple stdin :
  (exists k, triple_empty_at stdin k) ->
  exists i,
    triple_empty_at stdin i /\
    (forall j, j < i -> ~ triple_empty_at stdin j) /\
    multiline_input stdin
    = Returned (String.concat newline (firstn i stdin))
        (skipn (i + 3) stdin).
Proof.
  intros [k Hk]. destruct (first_triple_exists stdin k Hk) as (i & Hi & Hmin).
  exists i. split; [assumption|]. split; [assumption|].
  now apply multiline_input_at_first_triple.
Qed.

End MultilineInput.

(** ** Running the phases of [add] *)

(** Reading the options off a request given by its fields. *)
Ltac request_options :=
  cbn [opt_username opt_password opt_recovery_key opt_url opt_primary_email
       opt_secondary_email opt_token opt_notes].

Ltac reduce_run :=
  cbn [result final events prepend set_entropy entropy db db_exists app].

(** A [click.prompt] whose flag is given is answered. *)
Ltac settle_prompt given H :=
  destruct given; [rewrite (H eq_refl eq_refl)|]; clear H.

Section Runs.
Context {C : Collaborators}.

Lemma bind_run {A B : Type} (m : M A) (k : A -> M B) (w : World) :
  bind m k w =
  match result (m w) with
  | Ok a => prepend (events (m w)) (k a (final (m w)))
  | Exit status =>
      {| result := Exit status; final := final (m w); events := events (m w) |}
  | Raise e =>
      {| result := Raise e; final := final (m w); events := events (m w) |}
  end.
Proof. unfold bind. destruct (result (m w)); reflexivity. Qed.

Lemma bind_ok {A B : Type} (m : M A) (k : A -> M B) w a w' evs :
  m w = {| result := Ok a; final := w'; events := evs |} ->
  bind m k w = prepend evs (k a w').
Proof. intros H. rewrite bind_run, H. reflexivity. Qed.

Lemma world_eta w :
  {| db_exists := db_exists w; db := db w; entropy := entropy w |} = w.
Proof. destruct w; reflexivity. Qed.

Lemma run_eta {A : Type} (r : Run A) :
  r = {| result := result r; final := final r; events := events r |}.
Proof. destruct r; reflexivity. Qed.

Lemma quiet_ret {A : Type} (a : A) : quiet (ret a).
Proof. intros w. split; reflexivity. Qed.

Lemma quiet_raise {A : Type} (e : Exn) : quiet (raise (A := A) e).
Proof. intros w. split; reflexivity. Qed.

Lemma quiet_emit (e : Event) : is_prompt_event e = true -> quiet (emit e).
Proof. intros H w. split; [reflexivity|]. cbn. now rewrite H. Qed.

Lemma quiet_bind {A B : Type} (m : M A) (k : A -> M B) :
  quiet m -> (forall a, quiet (k a)) -> quiet (bind m k).
Proof.
  intros Hm Hk w. rewrite bind_run. destruct (Hm w) as [Hf He].
  destruct (result (m w)) as [a| |]; cbn [final events prepend]; auto.
  rewrite Hf. destruct (Hk a w) as [Hf' He'].
  split; [exact Hf'|]. now rewrite forallb_app, He, He'.
Qed.

Lemma quiet_when_flag (x : bool) (ask : M string) :
  quiet ask -> quiet (when_flag x ask).
Proof.
  intros H. unfold when_flag. destruct x; [|apply quiet_ret].
  apply quiet_bind; [exact H|]. intros s. apply quiet_ret.
Qed.

Lemma quiet_click_prompt tty f : quiet (click_prompt tty f).
Proof.
  unfold click_prompt. apply quiet_bind; [now apply quiet_emit|].
  intros _. destruct (ends_at tty f); [apply quiet_raise|apply quiet_ret].
Qed.

Lemma quiet_get_password tty f :
  quiet (entry <- get_password tty f ;; emit (AddedPanel f) ;; ret entry).
Proof.
  unfold get_password.
  repeat first [ apply quiet_bind | apply quiet_ret | now apply quiet_emit
               | intro ].
Qed.

Lemma quiet_prompt_notes tty : quiet (prompt_notes tty).
Proof.
  unfold prompt_notes. apply quiet_bind; [now apply quiet_emit|].
  intros _. destruct (CliUtils.multiline_input (stdin tty));
    [apply quiet_ret|apply quiet_raise].
Qed.

Lemma prompt_fields_quiet req tty : quiet (prompt_fields req tty).
Proof.
  unfold prompt_fields.
  repeat (apply quiet_bind;
          [apply quiet_when_flag;
           first [ apply quiet_click_prompt | apply quiet_get_password
                 | apply quiet_prompt_notes ]
          |intro]).
  apply quiet_ret.
Qed.

Lemma answered_or_cut_short req tty : answered req tty \/ cut_short req tty.
Proof.
  destruct (existsb (fun f => flag req f && is_click f && ends_at tty f)
              prompt_order) eqn:E.
  - right. apply existsb_exists in E as (f & _ & H).
    apply andb_prop in H as [H He]. apply andb_prop in H as [Hf Hc].
    now exists f.
  - left. intros f Hf Hc. destruct (ends_at tty f) eqn:He; [|reflexivity].
    rewrite <- E. symmetry. apply existsb_exists. exists f. split.
    + destruct f; cbn; auto 10.
    + now rewrite Hf, Hc, He.
Qed.

Lemma answered_not_cut_short req tty :
  answered req tty -> ~ cut_short req tty.
Proof.
  intros Ha (f & Hf & Hc & He). rewrite (Ha f Hf Hc) in He. discriminate.
Qed.

Lemma prompt_fields_ok req tty w text :
  answered req tty ->
  (opt_notes req = true -> notes_text tty = Some text) ->
  exists val evs,
    prompt_fields req tty w
    = {| result := Ok val; final := w; events := evs |} /\
    forallb is_prompt_event evs = true /\
    (forall f, val f = entered req tty text f).
Proof.
  intros Ha Hn. unfold notes_text in Hn.
  assert (HU := Ha Username). assert (HR := Ha Url).
  assert (HP := Ha PrimaryEmail). assert (HS := Ha SecondaryEmail). clear Ha.
  destruct req as [nm ms u p rk ur pe se tk nt];
    cbn [opt_notes flag is_click opt_username opt_url opt_primary_email
         opt_secondary_email] in Hn, HU, HR, HP, HS.
  unfold prompt_fields, click_prompt, prompt_notes, entered, flag;
    request_options.
  destruct nt;
    [specialize (Hn eq_refl);
     destruct (CliUtils.multiline_input (stdin tty)) as [t rest|];
     [injection Hn as ->|discriminate]
    |clear Hn];
    settle_prompt u HU; settle_prompt ur HR; settle_prompt pe HP;
    settle_prompt se HS; destruct p, rk, tk; cbv;
    do 2 eexists;
    (split; [reflexivity | split; [reflexivity | now intros []]]).
Qed.

Lemma prompt_fields_eof req tty w :
  answered req tty ->
  opt_notes req = true -> notes_text tty = None ->
  exists evs,
    prompt_fields req tty w
    = {| result := Raise EOF; final := w; events := evs |} /\
    forallb is_prompt_event evs = true.
Proof.
  intros Ha Hf Hn. unfold notes_text in Hn.
  assert (HU := Ha Username). assert (HR := Ha Url).
  assert (HP := Ha PrimaryEmail). assert (HS := Ha SecondaryEmail). clear Ha.
  destruct req as [nm ms u p rk ur pe se tk nt];
    cbn [opt_notes flag is_click opt_username opt_url opt_primary_email
         opt_secondary_email] in Hf, HU, HR, HP, HS.
  subst nt.
  unfold prompt_fields, click_prompt, prompt_notes; request_options.
  destruct (CliUtils.multiline_input (stdin tty)) as [t rest|];
    [discriminate|].
  settle_prompt u HU; settle_prompt ur HR; settle_prompt pe HP;
    settle_prompt se HS.
  all: destruct p, rk, tk; cbv; eexists; split; reflexivity.
Qed.

Lemma prompt_fields_abort req tty w :
  cut_short req tty ->
  exists evs,
    prompt_fields req tty w
    = {| result := Raise Abort; final := w; events := evs |} /\
    forallb is_prompt_event evs = true.
Proof.
  intros (f & Hf & Hc & He).
  destruct (prompt_fields_quiet req tty w) as [Hw Hq].
  exists (events (prompt_fields req tty w)). split; [|exact Hq].
  rewrite (run_eta (prompt_fields req tty w)) at 1. rewrite Hw. f_equal.
  destruct req as [nm ms u p rk ur pe se tk nt].
  unfold prompt_fields, click_prompt; request_options.
  destruct f; try discriminate Hc; cbn in Hf; subst; rewrite He;
    repeat match goal with
           | |- context [ends_at tty ?g] => destruct (ends_at tty g)
           end.
  all: try destruct u; try destruct p; try destruct ur; try destruct pe;
    try destruct se; reflexivity.
Qed.
Lemma encrypt_if_run x key w :
  encrypt_if x key w =
  {| result := Ok (fst (seal_field (entropy w) x key));
     final := set_entropy w (snd (seal_field (entropy w) x key));
     events := [] |}.
Proof.
  unfold encrypt_if, seal_field. destruct (truthy x); cbn.
  - reflexivity.
  - unfold set_entropy. now rewrite world_eta.
Qed.

Lemma seal_field_spec n x key :
  n <= snd (seal_field n x key) <= S n /\
  (truthy x = true ->
   fst (seal_field n x key) = Some (encrypt n (plaintext x) key) /\
   snd (seal_field n x key) = S n) /\
  (truthy x = false -> fst (seal_field n x key) = None).
Proof.
  unfold seal_field.
  destruct (truthy x); cbn; repeat split; try lia; try discriminate; auto.
Qed.

Lemma encrypt_credentials_run name pw val w :
  exists c n',
    encrypt_credentials name pw val w =
      {| result := Ok c; final := set_entropy w n'; events := [] |} /\
    entropy w < n' /\
    Credential.name c = name /\
    (exists n, entropy w < n < n' /\
       Credential.encrypted_key c =
         encrypt n (generate_fernet_key (entropy w)) (derive_vault_key pw)) /\
    (forall f,
       column_seals (column c f) (val f) (generate_fernet_key (entropy w))
         (entropy w) n').
Proof.
  unfold encrypt_credentials.
  set (key := generate_fernet_key (entropy w)).
  set (n0 := S (entropy w)).
  destruct (seal_field_spec n0 (val Username) key) as (B1 & T1 & F1).
  set (n1 := snd (seal_field n0 (val Username) key)) in *.
  destruct (seal_field_spec n1 (val Password) key) as (B2 & T2 & F2).
  set (n2 := snd (seal_field n1 (val Password) key)) in *.
  destruct (seal_field_spec n2 (val Url) key) as (B3 & T3 & F3).
  set (n3 := snd (seal_field n2 (val Url) key)) in *.
  destruct (seal_field_spec n3 (val RecoveryKey) key) as (B4 & T4 & F4).
  set (n4 := snd (seal_field n3 (val RecoveryKey) key)) in *.
  destruct (seal_field_spec n4 (val PrimaryEmail) key) as (B5 & T5 & F5).
  set (n5 := snd (seal_field n4 (val PrimaryEmail) key)) in *.
  destruct (seal_field_spec n5 (val SecondaryEmail) key) as (B6 & T6 & F6).
  set (n6 := snd (seal_field n5 (val SecondaryEmail) key)) in *.
  destruct (seal_field_spec n6 (val Token) key) as (B7 & T7 & F7).
  set (n7 := snd (seal_field n6 (val Token) key)) in *.
  destruct (seal_field_spec n7 (val Notes) key) as (B8 & T8 & F8).
  set (n8 := snd (seal_field n7 (val Notes) key)) in *.
  eexists. exists (S n8).
  split.
  { rewrite bind_run. cbn [draw result final events prepend].
    repeat (rewrite bind_run, encrypt_if_run; reduce_run).
    unfold encrypt_call. rewrite !bind_run. cbn. reflexivity. }
  cbn [Credential.name Credential.encrypted_key].
  split; [lia|]. split; [reflexivity|]. split.
  { exists n8. split; [lia|reflexivity]. }
  intros f. unfold column_seals.
  destruct f;
    cbn [column Credential.username Credential.password Credential.url
         Credential.primary_email Credential.secondary_email Credential.token
         Credential.recovery_key Credential.notes].
  all: match goal with
       | |- context [truthy ?x] => destruct (truthy x) eqn:E
       end.
  all: first [ solve [auto] | idtac ].
  - destruct (T1 eq_refl) as [T _]. exists n0. split; [lia|exact T].
  - destruct (T2 eq_refl) as [T _]. exists n1. split; [lia|exact T].
  - destruct (T3 eq_refl) as [T _]. exists n2. split; [lia|exact T].
  - destruct (T5 eq_refl) as [T _]. exists n4. split; [lia|exact T].
  - destruct (T6 eq_refl) as [T _]. exists n5. split; [lia|exact T].
  - destruct (T7 eq_refl) as [T _]. exists n6. split; [lia|exact T].
  - destruct (T4 eq_refl) as [T _]. exists n3. split; [lia|exact T].
  - destruct (T8 eq_refl) as [T _]. exists n7. split; [lia|exact T].
Qed.

Lemma persist_run ms c w :
  persist ms c w =
  match check_mnemonics (db w) ms with
  | Some m =>
      {| result := Ok tt; final := w; events := [MnemonicExistsNote m] |}
  | None =>
      let (cid, d1) := insert_credential (db w) c in
      match flush_mnemonics d1 ms cid with
      | Some d2 =>
          {| result := Ok tt; final := set_db w d2;
             events := [Commit d1; Commit d2;
                        SuccessPanel (Credential.name c); PrintOnScreen cid] |}
      | None =>
          {| result := Raise IntegrityError; final := set_db w d1;
             events := [Commit d1] |}
      end
  end.
Proof.
  unfold persist, bind, get_db; cbn.
  destruct (check_mnemonics (db w) ms) as [m|]; [reflexivity|].
  unfold add_credential, add_mnemonics, bind, get_db, commit, ret, raise,
    emit; cbn.
  destruct (flush_mnemonics _ ms _) as [d2|]; reflexivity.
Qed.

Lemma prepend_prepend {A : Type} (e1 e2 : list Event) (r : Run A) :
  prepend e1 (prepend e2 r) = prepend (e1 ++ e2) r.
Proof. unfold prepend; cbn [result final events]. now rewrite app_assoc. Qed.

Lemma prepend_nil {A : Type} (r : Run A) : prepend [] r = r.
Proof. destruct r; reflexivity. Qed.

Lemma emit_then {B : Type} (e : Event) (k : M B) (w : World) :
  (emit e ;; k) w = prepend [e] (k w).
Proof. now rewrite (bind_ok _ _ w tt w [e]). Qed.

Lemma assert_db_init_ok w :
  db_exists w = true ->
  assert_db_init w = {| result := Ok tt; final := w; events := [] |}.
Proof.
  intros H. unfold assert_db_init, check_db_init, bind; cbn. now rewrite H.
Qed.

Lemma assert_db_init_exit w :
  db_exists w = false ->
  assert_db_init w =
  {| result := Exit 1%Z; final := w; events := [NoVaultPanel; InitHint] |}.
Proof.
  intros H. unfold assert_db_init, check_db_init, bind; cbn. now rewrite H.
Qed.

Lemma verify_passed tty w :
  master_passwd_ok (master_passwd tty) = true ->
  input_master_passwd_and_verify tty w =
  {| result := Ok (master_passwd tty); final := w;
     events := [MasterPasswordPrompt] |}.
Proof.
  intros H. unfold input_master_passwd_and_verify.
  rewrite emit_then, H. reflexivity.
Qed.

Lemma verify_refused tty w :
  master_passwd_ok (master_passwd tty) = false ->
  input_master_passwd_and_verify tty w =
  {| result := Raise AuthenticationError; final := w;
     events := [MasterPasswordPrompt] |}.
Proof.
  intros H. unfold input_master_passwd_and_verify.
  rewrite emit_then, H. reflexivity.
Qed.

Lemma add_guard_passed {B : Type} tty (k : string -> M B) w :
  db_exists w = true ->
  master_passwd_ok (master_passwd tty) = true ->
  (print_basic_info ;; assert_db_init ;; emit Rule ;;
   master_passwd <- input_master_passwd_and_verify tty ;;
   k master_passwd) w
  = prepend [BasicInfo; Rule; MasterPasswordPrompt] (k (master_passwd tty) w).
Proof.
  intros Hdb Hok. unfold print_basic_info.
  rewrite emit_then, (bind_ok _ _ _ _ _ _ (assert_db_init_ok w Hdb)).
  rewrite emit_then, (bind_ok _ _ _ _ _ _ (verify_passed tty w Hok)).
  now rewrite prepend_nil, !prepend_prepend.
Qed.

Lemma add_guard_refused {B : Type} tty (k : string -> M B) w :
  db_exists w = true ->
  master_passwd_ok (master_passwd tty) = false ->
  (print_basic_info ;; assert_db_init ;; emit Rule ;;
   master_passwd <- input_master_passwd_and_verify tty ;;
   k master_passwd) w
  = {| result := Raise AuthenticationError; final := w;
       events := [BasicInfo; Rule; MasterPasswordPrompt] |}.
Proof.
  intros Hdb Hok. unfold print_basic_info.
  rewrite emit_then, (bind_ok _ _ _ _ _ _ (assert_db_init_ok w Hdb)).
  rewrite emit_then, bind_run, (verify_refused tty w Hok).
  reflexivity.
Qed.

Lemma add_cases req tty w : AddCase req tty w.
Proof.
  destruct (db_exists w) eqn:Hdb.
  - destruct (master_passwd_ok (master_passwd tty)) eqn:Hok.
    + pose proof (Hpre := fun B k => @add_guard_passed B tty k w Hdb Hok).
      destruct (answered_or_cut_short req tty) as [Ha|Hcut].
      * destruct (opt_notes req) eqn:Hn;
          [destruct (notes_text tty) as [text|] eqn:Ht|].
        -- destruct (prompt_fields_ok req tty w text Ha)
             as (val & pevs & Hp & Hq & Hv); [auto|].
           destruct (encrypt_credentials_run (opt_name req)
                       (master_passwd tty) val w) as (c & n' & Hc & _).
           apply (ReachesCheck req tty w text val pevs c n'); auto.
           unfold add. rewrite Hpre. rewrite (bind_ok _ _ _ _ _ _ Hp).
           rewrite (bind_ok _ _ _ _ _ _ Hc).
           unfold prepend; cbn [result final events app]. reflexivity.
        -- destruct (prompt_fields_eof req tty w Ha Hn Ht)
             as (pevs & Hp & Hq).
           apply (NotesCutShort req tty w pevs); auto.
           unfold add. rewrite Hpre, bind_run, Hp. reflexivity.
        -- destruct (prompt_fields_ok req tty w "" Ha)
             as (val & pevs & Hp & Hq & Hv); [rewrite Hn; discriminate|].
           destruct (encrypt_credentials_run (opt_name req)
                       (master_passwd tty) val w) as (c & n' & Hc & _).
           apply (ReachesCheck req tty w "" val pevs c n'); auto;
             [rewrite Hn; discriminate|].
           unfold add. rewrite Hpre. rewrite (bind_ok _ _ _ _ _ _ Hp).
           rewrite (bind_ok _ _ _ _ _ _ Hc).
           unfold prepend; cbn [result final events app]. reflexivity.
      * destruct (prompt_fields_abort req tty w Hcut) as (pevs & Hp & Hq).
        apply (PromptAborted req tty w pevs); auto.
        unfold add. rewrite Hpre, bind_run, Hp. reflexivity.
    + apply Refused; auto.
      unfold add. now apply add_guard_refused.
  - apply NoVault; [exact Hdb|].
    unfold add, print_basic_info.
    now rewrite emit_then, bind_run, (assert_db_init_exit w Hdb).
Qed.
End Runs.

(** ** The check of the mnemonics and the flush *)

Lemma mem_In s l : mem s l = true <-> In s l.
Proof.
  unfold mem. rewrite existsb_exists. split.
  - intros (x & Hx & E). apply String.eqb_eq in E. now subst.
  - intros H. exists s. split; [assumption | apply String.eqb_refl].
Qed.

Lemma mem_false s l : mem s l = false <-> ~ In s l.
Proof.
  rewrite <- mem_In. destruct (mem s l); split; congruence.
Qed.

Lemma query_names d names m :
  In m (map Mnemonic.name (query_mnemonics_in d names)) <->
  In m names /\ In m (mnemonic_names d).
Proof.
  unfold query_mnemonics_in, mnemonic_names. rewrite !in_map_iff. split.
  - intros (row & <- & H). apply filter_In in H as [H1 H2].
    apply mem_In in H2. split; [assumption | now exists row].
  - intros (Hm & row & <- & H). exists row. split; [reflexivity|].
    apply filter_In. split; [assumption | now apply mem_In].
Qed.

(** The loop of the check stops at the first requested mnemonic that is
    among the names. *)
Lemma first_existing_some ms names m :
  first_existing ms names = Some m ->
  exists before after,
    ms = before ++ m :: after /\ In m names /\
    forall x, In x before -> ~ In x names.
Proof.
  induction ms as [|a ms IH]; cbn; [discriminate|].
  destruct (mem a names) eqn:E.
  - intros [= ->]. exists [], ms. repeat split; [now apply mem_In | intros x []].
  - intros H. destruct (IH H) as (before & after & -> & Hin & Hb).
    exists (a :: before), after. repeat split; [assumption|].
    intros x [<- | Hx]; [now apply mem_false | now apply Hb].
Qed.

Lemma first_existing_none ms names :
  first_existing ms names = None <-> forall x, In x ms -> ~ In x names.
Proof.
  induction ms as [|a ms IH]; cbn.
  - split; [intros _ x [] | reflexivity].
  - destruct (mem a names) eqn:E.
    + split; [discriminate|]. intros H. apply mem_In in E.
      exfalso. exact (H a (or_introl eq_refl) E).
    + rewrite IH. apply mem_false in E. split.
      * intros H x [<- | Hx]; auto.
      * intros H x Hx. apply H. now right.
Qed.

Lemma check_mnemonics_some d ms m :
  check_mnemonics d ms = Some m ->
  exists before after,
    ms = before ++ m :: after /\ In m (mnemonic_names d) /\
    forall x, In x before -> ~ In x (mnemonic_names d).
Proof.
  unfold check_mnemonics. intros H.
  destruct (first_existing_some _ _ _ H) as (before & after & E & Hin & Hb).
  exists before, after. split; [assumption|]. split.
  - now apply query_names in Hin.
  - intros x Hx Hx'. apply (Hb x Hx). apply query_names. split; [|assumption].
    rewrite E. apply in_or_app. now left.
Qed.

Lemma check_mnemonics_none d ms :
  check_mnemonics d ms = None <->
  forall x, In x ms -> ~ In x (mnemonic_names d).
Proof.
  unfold check_mnemonics. rewrite first_existing_none. split.
  - intros H x Hx Hx'. apply (H x Hx). now apply query_names.
  - intros H x Hx Hx'. apply query_names in Hx'. now apply (H x Hx).
Qed.


Lemma pending_names ms cid :
  map Mnemonic.name (pending_mnemonics ms cid) = ms.
Proof.
  unfold pending_mnemonics. rewrite map_map. cbn. apply map_id.
Qed.

Lemma insert_mnemonics_app u rows : forall table table',
  insert_mnemonics u table rows = Some table' -> table' = table ++ rows.
Proof.
  induction rows as [|r rows IH]; cbn; intros table table'.
  - intros [= <-]. now rewrite app_nil_r.
  - destruct (u && mem _ _); [discriminate|]. intros H.
    rewrite (IH _ _ H), <- app_assoc. reflexivity.
Qed.

Lemma insert_mnemonics_unique rows : forall table table',
  insert_mnemonics true table rows = Some table' ->
  NoDup (map Mnemonic.name table) -> NoDup (map Mnemonic.name table').
Proof.
  induction rows as [|r rows IH]; cbn; intros table table'.
  - now intros [= <-].
  - destruct (mem _ _) eqn:E; [discriminate|]. intros H Hnd.
    apply (IH _ _ H). rewrite map_app. cbn.
    apply mem_false in E.
    apply NoDup_app; [assumption | repeat constructor; intros [] | ].
    intros x Hx [<- | []]. contradiction.
Qed.

Lemma insert_mnemonics_free u rows : forall table,
  NoDup (map Mnemonic.name rows) ->
  (forall x, In x (map Mnemonic.name rows) -> ~ In x (map Mnemonic.name table)) ->
  insert_mnemonics u table rows = Some (table ++ rows).
Proof.
  induction rows as [|r rows IH]; cbn; intros table Hnd Hfree.
  - now rewrite app_nil_r.
  - inversion Hnd as [|? ? Hr Hnd']; subst.
    assert (E : mem (Mnemonic.name r) (map Mnemonic.name table) = false).
    { apply mem_false. apply Hfree. now left. }
    rewrite E, andb_false_r, IH, <- app_assoc; [reflexivity | assumption |].
    intros x Hx. rewrite map_app, in_app_iff. cbn.
    intros [H | [<- | []]]; [|contradiction].
    apply (Hfree x); [now right | assumption].
Qed.

Section Flush.
Context {C : Collaborators}.

Lemma flush_mnemonics_some d ms cid d' :
  flush_mnemonics d ms cid = Some d' ->
  d' = {| credential_rows := credential_rows d;
          mnemonic_rows := mnemonic_rows d ++ pending_mnemonics ms cid |}.
Proof.
  unfold flush_mnemonics.
  destruct (insert_mnemonics _ _ _) as [table|] eqn:E; [|discriminate].
  intros [= <-]. now rewrite (insert_mnemonics_app _ _ _ _ E).
Qed.

Lemma flush_mnemonics_unique d ms cid d' :
  mnemonic_name_unique = true ->
  flush_mnemonics d ms cid = Some d' ->
  alias_unique d -> alias_unique d'.
Proof.
  unfold flush_mnemonics, alias_unique, mnemonic_names. intros ->.
  destruct (insert_mnemonics _ _ _) as [table|] eqn:E; [|discriminate].
  intros [= <-]. cbn.
  now apply insert_mnemonics_unique with (rows := pending_mnemonics ms cid).
Qed.

(** A request without repetition that passed the check is flushed, whether
    the alias column is unique or not, and leaves the aliases unique. *)
Lemma flush_mnemonics_checked d ms cid :
  NoDup ms ->
  check_mnemonics d ms = None ->
  alias_unique d ->
  exists d', flush_mnemonics d ms cid = Some d' /\ alias_unique d'.
Proof.
  intros Hnd Hchk Hd. unfold flush_mnemonics.
  pose proof (proj1 (check_mnemonics_none d ms) Hchk) as Hfree.
  rewrite insert_mnemonics_free.
  - eexists. split; [reflexivity|].
    unfold alias_unique, mnemonic_names. cbn.
    rewrite map_app, pending_names.
    apply NoDup_app; [assumption | assumption |].
    intros x Hx Hx'. exact (Hfree x Hx' Hx).
  - now rewrite pending_names.
  - rewrite pending_names. exact Hfree.
Qed.

End Flush.

(** ** What [add] does to the store *)


Lemma committed_app e1 e2 : committed (e1 ++ e2) = committed e1 ++ committed e2.
Proof.
  induction e1 as [|e e1 IH]; [reflexivity|].
  destruct e; cbn; rewrite ?IH; reflexivity.
Qed.

Lemma prompt_events_commit_nothing evs :
  forallb is_prompt_event evs = true -> committed evs = [].
Proof.
  induction evs as [|e evs IH]; [reflexivity|]. cbn.
  destruct e; cbn; try discriminate; exact IH.
Qed.

Lemma prompt_events_only evs e :
  forallb is_prompt_event evs = true -> In e evs -> is_prompt_event e = true.
Proof. intros H. now apply forallb_forall. Qed.

Section Effects.
Context {C : Collaborators}.

Lemma add_store_effect req tty w : StoreEffect req tty w.
Proof.
  destruct (add_cases req tty w)
    as [Hdb Hrun | Hdb Hok Hrun | pevs Hdb Hok Hcut Hp Hrun
       | pevs Hdb Hok Ha Hn Ht Hp Hrun
       | text val pevs c n' Hdb Hok Ha Hn Hv Hp Hc Hrun].
  - apply Untouched; rewrite Hrun; cbn; auto.
    intros name [H|[H|[H|[]]]]; discriminate.
  - apply Untouched; rewrite Hrun; cbn; auto.
    intros name [H|[H|[H|[]]]]; discriminate.
  - apply Untouched; rewrite Hrun; cbn [events final]; auto.
    + cbn. now apply prompt_events_commit_nothing.
    + intros name [H|[H|[H|H]]]; try discriminate.
      apply (prompt_events_only _ _ Hp) in H. discriminate.
  - apply Untouched; rewrite Hrun; cbn [events final]; auto.
    + cbn. now apply prompt_events_commit_nothing.
    + intros name [H|[H|[H|H]]]; try discriminate.
      apply (prompt_events_only _ _ Hp) in H. discriminate.
  - rewrite persist_run in Hrun. cbn [db set_entropy] in Hrun.
    destruct (check_mnemonics (db w) (opt_mnemonics req)) as [m|] eqn:Hchk.
    + apply Untouched; rewrite Hrun; cbn [prepend events final result].
      * rewrite committed_app. cbn. rewrite app_nil_r.
        now apply prompt_events_commit_nothing.
      * right. now exists n'.
      * intros name H. apply in_app_or in H as [[H|[H|[H|H]]]|[H|[]]]; try discriminate.
        apply (prompt_events_only _ _ Hp) in H. discriminate.
    + apply (Written req tty w text val c n'); auto.
      * intros d1 d2 -> Hf. unfold insert_credential in Hrun, Hf. cbn [snd] in Hf.
        cbv zeta in Hrun. rewrite Hf in Hrun. rewrite Hrun.
        cbn [prepend events final result]. rewrite committed_app.
        cbn [app committed].
        rewrite (prompt_events_commit_nothing pevs Hp). auto.
      * intros d1 -> Hf. unfold insert_credential in Hrun, Hf. cbn [snd] in Hf.
        cbv zeta in Hrun. rewrite Hf in Hrun. rewrite Hrun.
        cbn [prepend events final result]. rewrite committed_app.
        cbn [app committed].
        rewrite (prompt_events_commit_nothing pevs Hp). auto.
Qed.

End Effects.


Section Lifecycle.
Context {C : Collaborators}.

Lemma untouched_db req tty w :
  final (add req tty w) = w \/
    (exists n', final (add req tty w) = set_entropy w n') ->
  db (final (add req tty w)) = db w.
Proof. intros [-> | [n' ->]]; reflexivity. Qed.

(** C1, as the code has it.  An invocation commits at most twice: first the
    row of the new credential alone, then, in one commit, a row for every
    requested mnemonic.  So the contents of the store it makes visible are:
    none; or the credential row without mnemonic rows; or that content
    followed by the credential row with all the requested mnemonic rows.
    No content shows some of the mnemonic rows without the others. *)
Theorem add_commits_credential_then_aliases req tty w :
  let r := add req tty w in
  (committed (events r) = [] /\ db (final r) = db w) \/
  exists cid c,
    let d1 := {| credential_rows := credential_rows (db w) ++ [(cid, c)];
                 mnemonic_rows := mnemonic_rows (db w) |} in
    let d2 := {| credential_rows := credential_rows (db w) ++ [(cid, c)];
                 mnemonic_rows :=
                   mnemonic_rows (db w)
                   ++ pending_mnemonics (opt_mnemonics req) cid |} in
    (committed (events r) = [d1] /\ db (final r) = d1) \/
    (committed (events r) = [d1; d2] /\ db (final r) = d2).
Proof.
  cbv zeta.
  destruct (add_store_effect req tty w)
    as [Hc Hf _ | text val c n' _ _ _ _ _ _ _ Hsome Hnone].
  - left. split; [assumption | now apply untouched_db].
  - right. exists (next_id (db w)), c.
    destruct (flush_mnemonics (snd (insert_credential (db w) c))
                (opt_mnemonics req) (next_id (db w))) as [d2|] eqn:Hf.
    + right. destruct (Hsome _ d2 eq_refl Hf) as (H1 & H2 & _).
      rewrite H1, H2. apply flush_mnemonics_some in Hf. subst d2.
      split; reflexivity.
    + left. destruct (Hnone _ eq_refl Hf) as (H1 & H2 & _).
      rewrite H1, H2. split; reflexivity.
Qed.

Lemma add_keeps_aliases_unique req tty w :
  mnemonic_name_unique = true ->
  alias_unique (db w) ->
  Forall alias_unique (committed (events (add req tty w))) /\
  alias_unique (db (final (add req tty w))).
Proof.
  intros Hu Hw.
  destruct (add_store_effect req tty w)
    as [Hc Hf _ | text val c n' _ _ _ _ _ _ _ Hsome Hnone].
  - rewrite Hc, (untouched_db _ _ _ Hf). split; [constructor | assumption].
  - assert (H1 : alias_unique (snd (insert_credential (db w) c))) by exact Hw.
    destruct (flush_mnemonics (snd (insert_credential (db w) c))
                (opt_mnemonics req) (next_id (db w))) as [d2|] eqn:Hf.
    + destruct (Hsome _ d2 eq_refl Hf) as (E1 & E2 & _). rewrite E1, E2.
      pose proof (flush_mnemonics_unique _ _ _ _ Hu Hf H1) as H2.
      split; [repeat constructor; assumption | exact H2].
    + destruct (Hnone _ eq_refl Hf) as (E1 & E2 & _). rewrite E1, E2.
      split; [repeat constructor; assumption | exact H1].
Qed.

(** The check of [add] alone keeps the aliases unique for a request that
    does not repeat a mnemonic, whatever the declaration of the column. *)
Lemma add_without_repetition_keeps_aliases_unique req tty w :
  NoDup (opt_mnemonics req) ->
  alias_unique (db w) ->
  Forall alias_unique (committed (events (add req tty w))) /\
  alias_unique (db (final (add req tty w))).
Proof.
  intros Hnd Hw.
  destruct (add_store_effect req tty w)
    as [Hc Hf _ | text val c n' _ _ _ _ _ _ Hchk Hsome _].
  - rewrite Hc, (untouched_db _ _ _ Hf). split; [constructor | assumption].
  - assert (H1 : alias_unique (snd (insert_credential (db w) c))) by exact Hw.
    destruct (flush_mnemonics_checked (snd (insert_credential (db w) c))
                (opt_mnemonics req) (next_id (db w)) Hnd Hchk H1)
      as (d2 & Hf & H2).
    destruct (Hsome _ d2 eq_refl Hf) as (E1 & E2 & _). rewrite E1, E2.
    split; [repeat constructor; assumption | exact H2].
Qed.

(** C2.  With the alias column declared unique, no sequence of invocations
    of [add] breaks the uniqueness of the aliases: from a store in which no
    two mnemonic rows share an alias, every content committed on the way
    and the content at the end have that property too, whatever the
    requests list, a mnemonic given twice in one request included. *)
Theorem adds_keep_aliases_unique calls : forall w,
  mnemonic_name_unique = true ->
  alias_unique (db w) ->
  Forall alias_unique (committed (fst (adds calls w))) /\
  alias_unique (db (snd (adds calls w))).
Proof.
  induction calls as [|[req tty] calls IH]; intros w Hu Hw; cbn [adds].
  - split; [constructor | assumption].
  - destruct (add_keeps_aliases_unique req tty w Hu Hw) as [H1 H2].
    destruct (IH (final (add req tty w)) Hu H2) as [H3 H4].
    destruct (adds calls (final (add req tty w))) as [evs w'].
    cbn [fst snd] in *. rewrite committed_app. split; [|assumption].
    apply Forall_app. now split.
Qed.

(** C3.  When one of the requested mnemonics already exists in the store,
    the invocation leaves the store as it was: it commits nothing, the
    content at the end is the content at the start, credential rows and
    mnemonic rows alike, and no success is announced. *)
Theorem add_existing_alias_leaves_vault_unchanged req tty w m :
  In m (opt_mnemonics req) ->
  In m (mnemonic_names (db w)) ->
  let r := add req tty w in
  db (final r) = db w /\
  committed (events r) = [] /\
  forall name, ~ In (SuccessPanel name) (events r).
Proof.
  intros Hm Hex. cbv zeta.
  destruct (add_store_effect req tty w)
    as [Hc Hf Hs | text val c n' _ _ _ _ _ _ Hchk _ _].
  - split; [now apply untouched_db | now split].
  - exfalso. exact (proj1 (check_mnemonics_none _ _) Hchk m Hm Hex).
Qed.


Lemma persist_entropy ms c w :
  entropy (final (persist ms c w)) = entropy w.
Proof.
  rewrite persist_run.
  destruct (check_mnemonics (db w) ms); [reflexivity|].
  unfold insert_credential.
  destruct (flush_mnemonics _ ms _); reflexivity.
Qed.

(** The random source never goes back. *)
Lemma add_entropy_le req tty w :
  entropy w <= entropy (final (add req tty w)).
Proof.
  destruct (add_cases req tty w)
    as [_ Hrun | _ _ Hrun | pevs _ _ _ _ Hrun | pevs _ _ _ _ _ _ Hrun
       | text val pevs c n' _ _ _ _ _ _ Hc Hrun];
    rewrite Hrun; cbn [final prepend]; try lia.
  rewrite persist_entropy. cbn [entropy set_entropy].
  destruct (encrypt_credentials_run (opt_name req) (master_passwd tty) val w)
    as (c1 & n1 & Hc1 & Hlt & _).
  rewrite Hc in Hc1. injection Hc1 as _ En. lia.
Qed.

Lemma adds_entropy_le calls : forall w,
  entropy w <= entropy (snd (adds calls w)).
Proof.
  induction calls as [|[req tty] calls IH]; intros w; cbn [adds].
  - cbn. lia.
  - specialize (IH (final (add req tty w))).
    pose proof (add_entropy_le req tty w).
    destruct (adds calls (final (add req tty w))) as [evs w'].
    cbn [snd] in *. lia.
Qed.

(** The credential row an invocation creates is the one built by
    [encrypt_credentials] at the position the random source had on
    entry. *)
Lemma add_created req tty w cid c :
  created (db w) (db (final (add req tty w))) (cid, c) ->
  exists text,
    (opt_notes req = true -> notes_text tty = Some text) /\
    entropy w < entropy (final (add req tty w)) /\
    (exists n, entropy w < n < entropy (final (add req tty w)) /\
       Credential.encrypted_key c =
         encrypt n (generate_fernet_key (entropy w))
           (derive_vault_key (master_passwd tty))) /\
    (forall f,
       column_seals (column c f) (entered req tty text f)
         (generate_fernet_key (entropy w))
         (entropy w) (entropy (final (add req tty w)))).
Proof.
  intros [Hin Hnew].
  destruct (add_store_effect req tty w)
    as [_ Hf _ | text val c0 n' _ _ _ Hn Hv Hc _ Hsome Hnone].
  - rewrite (untouched_db _ _ _ Hf) in Hin. contradiction.
  - assert (Hfin : entropy (final (add req tty w)) = n' /\
                   credential_rows (db (final (add req tty w)))
                   = credential_rows (db w) ++ [(next_id (db w), c0)]).
    { destruct (flush_mnemonics (snd (insert_credential (db w) c0))
                  (opt_mnemonics req) (next_id (db w))) as [d2|] eqn:Hf.
      - destruct (Hsome _ d2 eq_refl Hf) as (_ & -> & _).
        apply flush_mnemonics_some in Hf. subst d2. split; reflexivity.
      - destruct (Hnone _ eq_refl Hf) as (_ & -> & _). split; reflexivity. }
    destruct Hfin as [He Hrows]. rewrite Hrows in Hin. rewrite He.
    apply in_app_or in Hin as [Hin | [Hin | []]]; [contradiction|].
    injection Hin as _ <-.
    destruct (encrypt_credentials_run (opt_name req) (master_passwd tty) val w)
      as (c1 & n1 & Hc1 & Hlt & _ & Hkey & Hcols).
    rewrite Hc in Hc1. injection Hc1 as <- En. 
    exists text. split; [assumption|]. rewrite En.
    split; [assumption|]. split; [assumption|].
    intros f. rewrite <- Hv. apply Hcols.
Qed.

(** C5.  For the credential row an invocation creates: its data key is the
    key the generator samples at the position the random source has when
    the invocation starts; no other draw of this invocation is made at that
    position, and the source is past it afterwards and stays past it
    whatever invocations follow, so the key is sampled for this credential
    alone, and its sampling does not involve the master password;
    [encrypted_key] is that key encrypted under the vault key derived from
    the master password; and the column of each field whose value is
    present is the encryption of that value under the data key. *)
Theorem add_seals_fields_under_fresh_key req tty w cid c :
  created (db w) (db (final (add req tty w))) (cid, c) ->
  let key := generate_fernet_key (entropy w) in
  let after := entropy (final (add req tty w)) in
  exists text,
    (opt_notes req = true -> notes_text tty = Some text) /\
    entropy w < after /\
    (forall calls,
       entropy w < entropy (snd (adds calls (final (add req tty w))))) /\
    (exists n, entropy w < n < after /\
       Credential.encrypted_key c =
         encrypt n key (derive_vault_key (master_passwd tty))) /\
    (forall f,
       column_seals (column c f) (entered req tty text f) key
         (entropy w) after).
Proof.
  intros H.
  destruct (add_created req tty w cid c H) as (text & Hn & Hlt & Hkey & Hcols).
  exists text. split; [assumption|]. split; [assumption|].
  split; [|split; assumption].
  intros calls. pose proof (adds_entropy_le calls (final (add req tty w))). lia.
Qed.

(** C6.  A field whose flag is not given is stored as not present: in the
    credential row the invocation creates, its column holds nothing. *)
Theorem add_absent_field_not_present req tty w cid c f :
  flag req f = false ->
  created (db w) (db (final (add req tty w))) (cid, c) ->
  column c f = None.
Proof.
  intros Hf Hc.
  destruct (add_created req tty w cid c Hc) as (text & _ & _ & _ & Hcols).
  specialize (Hcols f). unfold column_seals, entered in Hcols.
  now rewrite Hf in Hcols.
Qed.

(** C8.  A field whose flag is given and whose prompt returns the empty
    string is stored as a field whose flag is not given: in the credential
    row the invocation creates, its column holds nothing, in both cases. *)
Theorem add_empty_entry_not_present req tty w cid c f :
  flag req f = false \/ prompted tty f = Some "" ->
  created (db w) (db (final (add req tty w))) (cid, c) ->
  column c f = None.
Proof.
  intros Hor Hc.
  destruct (add_created req tty w cid c Hc) as (text & Hn & _ & _ & Hcols).
  specialize (Hcols f). unfold column_seals, entered in Hcols.
  destruct (flag req f) eqn:Hf; [|exact Hcols].
  destruct Hor as [Hor | Hp]; [discriminate Hor|].
  destruct f; cbn [prompted] in Hp;
    try (injection Hp as Hp; rewrite Hp in Hcols; exact Hcols).
  cbn [flag] in Hf. rewrite (Hn Hf) in Hp. injection Hp as ->. exact Hcols.
Qed.

(** C10.  Without a vault file the invocation exits with status 1, the
    master password has not been asked for, nothing has been committed and
    the state is what it was. *)
Theorem add_without_vault_exits req tty w :
  db_exists w = false ->
  let r := add req tty w in
  result r = Exit 1%Z /\
  ~ In MasterPasswordPrompt (events r) /\
  committed (events r) = [] /\
  final r = w.
Proof.
  intros Hdb. cbv zeta.
  destruct (add_cases req tty w)
    as [_ Hrun | Hdb' | pevs Hdb' | pevs Hdb' | text val pevs c n' Hdb'];
    [|congruence|congruence|congruence|congruence].
  rewrite Hrun. cbn. repeat split; auto.
  intros [H|[H|[H|[]]]]; discriminate.
Qed.

End Lifecycle.

(** ** Interleaved invocations *)


Lemma insert_mnemonics_fresh rows : forall table table',
  insert_mnemonics true table rows = Some table' ->
  forall x, In x (map Mnemonic.name rows) -> ~ In x (map Mnemonic.name table).
Proof.
  induction rows as [|r rows IH]; cbn; intros table table' H x Hx; [contradiction|].
  destruct (mem _ _) eqn:E; [discriminate|].
  destruct Hx as [<- | Hx]; [now apply mem_false|].
  intros Hin. apply (IH _ _ H x Hx). rewrite map_app. apply in_or_app. now left.
Qed.

Section Interleaved.
Context {C : Collaborators}.

Lemma stage_step_spec job st d st' d' :
  mnemonic_name_unique = true ->
  stage_step job st d = (st', d') ->
  (forall m, In m (mnemonic_names d) -> In m (mnemonic_names d')) /\
  (alias_unique d -> alias_unique d') /\
  (forall cid, st' = Succeeded cid ->
     (st = Succeeded cid /\ d' = d) \/
     ((forall m, In m (job_mnemonics job) -> ~ In m (mnemonic_names d)) /\
      (forall m, In m (job_mnemonics job) -> In m (mnemonic_names d')))).
Proof.
  intros Hu. destruct st; cbn [stage_step].
  - destruct (check_mnemonics d (job_mnemonics job)); intros [= <- <-];
      (split; [auto | split; [auto | intros cid; discriminate]]).
  - unfold insert_credential. intros [= <- <-].
    split; [auto | split; [auto | intros c; discriminate]].
  - destruct (flush_mnemonics d (job_mnemonics job) cid) as [d2|] eqn:Hf;
      intros [= <- <-].
    + pose proof (flush_mnemonics_unique _ _ _ _ Hu Hf) as Hun.
      pose proof (flush_mnemonics_some _ _ _ _ Hf) as E.
      assert (Hnames : mnemonic_names d2 = mnemonic_names d ++ job_mnemonics job).
      { rewrite E. unfold mnemonic_names. cbn. now rewrite map_app, pending_names. }
      split; [|split; [assumption|]].
      * intros m Hm. rewrite Hnames. apply in_or_app. now left.
      * intros c _. right. split.
        -- unfold flush_mnemonics in Hf. rewrite Hu in Hf.
           destruct (insert_mnemonics true _ _) as [t|] eqn:Hi; [|discriminate].
           intros m Hm. apply (insert_mnemonics_fresh _ _ _ Hi).
           now rewrite pending_names.
        -- intros m Hm. rewrite Hnames. apply in_or_app. now right.
    + split; [auto | split; [auto | intros c; discriminate]].
  - intros [= <- <-]. split; [auto | split; [auto | intros c; discriminate]].
  - intros [= <- <-]. split; [auto | split; [auto | intros c; discriminate]].
  - intros [= <- <-]. split; [auto | split; [auto|]]. intros c [= <-]. now left.
Qed.

Lemma sys_step_safe jl jr who s :
  mnemonic_name_unique = true ->
  Safe jl jr s -> Safe jl jr (sys_step jl jr who s).
Proof.
  intros Hu [I1 I2 I3 I4]. destruct who; cbn [sys_step].
  - destruct (stage_step jl (stage_left s) (store s)) as [st d] eqn:E.
    destruct (stage_step_spec _ _ _ _ _ Hu E) as (Hg & Hun & Hs).
    constructor; cbn [store stage_left stage_right].
    + auto.
    + intros cid Hst m Hm. destruct (Hs cid Hst) as [[Hl ->] | [_ Hin]]; eauto.
    + intros cid Hst m Hm. eauto.
    + intros cl cr Hl Hr m Hm Hm'.
      destruct (Hs cl Hl) as [[Hl' ->] | [Hfree _]]; [now apply (I4 cl cr Hl' Hr m)|].
      apply (Hfree m Hm). now apply (I3 cr Hr).
  - destruct (stage_step jr (stage_right s) (store s)) as [st d] eqn:E.
    destruct (stage_step_spec _ _ _ _ _ Hu E) as (Hg & Hun & Hs).
    constructor; cbn [store stage_left stage_right].
    + auto.
    + intros cid Hst m Hm. eauto.
    + intros cid Hst m Hm. destruct (Hs cid Hst) as [[Hl ->] | [_ Hin]]; eauto.
    + intros cl cr Hl Hr m Hm Hm'.
      destruct (Hs cr Hr) as [[Hr' ->] | [Hfree _]]; [now apply (I4 cl cr Hl Hr' m)|].
      apply (Hfree m Hm'). now apply (I2 cl Hl).
Qed.

Lemma run_schedule_safe jl jr schedule : forall s,
  mnemonic_name_unique = true ->
  Safe jl jr s -> Safe jl jr (run_schedule jl jr schedule s).
Proof.
  induction schedule as [|who rest IH]; intros s Hu Hs; cbn [run_schedule].
  - assumption.
  - apply IH; [assumption|]. now apply sys_step_safe.
Qed.

(** C7, as the code has it.  With the alias column declared unique, in
    whatever order the store serves the operations of two invocations, the
    aliases in the store stay unique and the two invocations do not both
    succeed with a mnemonic in common: the second commit of mnemonic rows
    is turned down by the store. *)
Theorem interleaved_adds_never_share_alias jl jr d schedule :
  mnemonic_name_unique = true ->
  alias_unique d ->
  let s := run_schedule jl jr schedule (start d) in
  alias_unique (store s) /\
  forall cl cr,
    stage_left s = Succeeded cl -> stage_right s = Succeeded cr ->
    forall m, In m (job_mnemonics jl) -> ~ In m (job_mnemonics jr).
Proof.
  intros Hu Hd. cbv zeta.
  assert (H0 : Safe jl jr (start d)).
  { constructor; cbn; [assumption | discriminate | discriminate | discriminate]. }
  destruct (run_schedule_safe jl jr schedule _ Hu H0) as [I1 _ _ I4].
  split; assumption.
Qed.

(** One invocation alone: the three operations of its stages are what
    [persist] does. *)
Lemma persist_as_stages ms c w :
  let job := {| job_mnemonics := ms; job_credential := c |} in
  let s := run_schedule job job [Left; Left; Left] (start (db w)) in
  db (final (persist ms c w)) = store s /\
  match stage_left s with
  | Skipped m =>
      result (persist ms c w) = Ok tt /\
      events (persist ms c w) = [MnemonicExistsNote m]
  | Succeeded cid =>
      result (persist ms c w) = Ok tt /\
      In (PrintOnScreen cid) (events (persist ms c w))
  | Failed _ => result (persist ms c w) = Raise IntegrityError
  | _ => False
  end.
Proof.
  cbv zeta. rewrite persist_run.
  cbn [run_schedule sys_step start store stage_left stage_right stage_step
       job_mnemonics job_credential].
  destruct (check_mnemonics (db w) ms) as [m|];
    cbn [run_schedule sys_step start store stage_left stage_right stage_step
         job_mnemonics job_credential].
  - auto.
  - unfold insert_credential. cbn.
    destruct (flush_mnemonics _ ms (next_id (db w))) as [d2|]; cbn; intuition auto.
Qed.

End Interleaved.

(** ** Worked instances *)

Section Instances.
Import Sample.

(** C9 at work: a line, an empty line, a line, then three empty lines. *)
Lemma multiline_input_stops_at_first_triple_witness :
  (exists k, CliUtils.triple_empty_at (stdin tty) k) /\
  (exists i,
     CliUtils.triple_empty_at (stdin tty) i /\
     (forall j, j < i -> ~ CliUtils.triple_empty_at (stdin tty) j) /\
     CliUtils.multiline_input (stdin tty)
     = CliUtils.Returned
         (String.concat CliUtils.newline (firstn i (stdin tty)))
         (skipn (i + 3) (stdin tty))).
Proof.
  assert (H : exists k, CliUtils.triple_empty_at (stdin tty) k)
    by (exists 3; repeat split).
  split; [exact H|].
  exact (multiline_input_stops_at_first_triple (stdin tty) H).
Defined.

Lemma multiline_input_sample :
  CliUtils.multiline_input (stdin tty)
  = CliUtils.Returned
      (String.concat CliUtils.newline ["line1"; ""; "line2"]) ["unread"].
Proof. reflexivity. Qed.

(** Three empty lines at once give the empty text. *)
Lemma multiline_input_empty :
  CliUtils.multiline_input [""; ""; ""] = CliUtils.Returned "" [].
Proof. reflexivity. Qed.

(** C1 as stated fails: the first commit of an invocation on a fresh vault
    shows the credential row of Gmail without the rows of g1 and g2. *)
Lemma add_not_all_or_nothing :
  ~ @add_all_or_nothing strict gmail tty fresh_vault.
Proof.
  intros H.
  specialize
    (H (hd empty_db (committed (events (@add strict gmail tty fresh_vault))))).
  destruct H as [H | (cid & c & _ & H)].
  - vm_compute. left. reflexivity.
  - vm_compute in H. discriminate H.
  - vm_compute in H. discriminate H.
Qed.

(** When the commit of the mnemonic rows is turned down, the credential
    row of the first commit stays. *)
Lemma add_failed_aliases_leave_credential :
  result (@add strict twice tty fresh_vault) = Raise IntegrityError /\
  length (credential_rows (db (final (@add strict twice tty fresh_vault))))
  = 1 /\
  mnemonic_rows (db (final (@add strict twice tty fresh_vault))) = [].
Proof. vm_compute. repeat split. Qed.

(** C2 at work: three invocations, the first with a mnemonic given twice. *)
Lemma adds_keep_aliases_unique_witness :
  (@mnemonic_name_unique strict = true /\ alias_unique (db fresh_vault)) /\
  (Forall alias_unique (committed (fst (@adds strict calls fresh_vault))) /\
   alias_unique (db (snd (@adds strict calls fresh_vault)))).
Proof.
  split.
  - split; [reflexivity | constructor].
  - apply (@adds_keep_aliases_unique strict calls fresh_vault);
      [reflexivity | constructor].
Defined.

(** The check of [add] itself does not look for a mnemonic given twice:
    were the alias column not unique, both rows would be stored. *)
Lemma repeated_mnemonic_needs_unique_column :
  ~ alias_unique (db (final (@add lax twice tty fresh_vault))).
Proof.
  intros H. vm_compute in H. inversion H as [|x l Hx _]. apply Hx. now left.
Qed.

(** C3 at work: g1 exists, g1 and g2 are requested. *)
Lemma add_existing_alias_leaves_vault_unchanged_witness :
  (In "g1" (opt_mnemonics gmail) /\ In "g1" (mnemonic_names (db vault_g1))) /\
  (db (final (@add strict gmail tty vault_g1)) = db vault_g1 /\
   committed (events (@add strict gmail tty vault_g1)) = [] /\
   forall name,
     ~ In (SuccessPanel name) (events (@add strict gmail tty vault_g1))).
Proof.
  split.
  - split; simpl; auto.
  - apply (@add_existing_alias_leaves_vault_unchanged strict gmail tty
             vault_g1 "g1"); simpl; auto.
Defined.


(** It returns, and g2, the second offending mnemonic, is not named. *)
Lemma second_duplicate_not_named :
  result (@add strict gmail tty vault_g1_g2) = Ok tt /\
  In "g2" (offending (db vault_g1_g2) (opt_mnemonics gmail)) /\
  ~ In (MnemonicExistsNote "g2") (events (@add strict gmail tty vault_g1_g2)).
Proof.
  split; [reflexivity|]. split; [vm_compute; auto|].
  vm_compute. intros H.
  repeat (destruct H as [H | H]; [discriminate H|]). exact H.
Qed.

(** The person of the samples knows the master password and answers
    every prompt. *)
Lemma tty_verified : @master_passwd_ok strict (master_passwd tty) = true.
Proof. reflexivity. Qed.

Lemma tty_answered req : answered req tty.
Proof. intros f _ _. reflexivity. Qed.


Lemma stored_row_created :
  created (db fresh_vault) (db (final (@add strict full tty fresh_vault)))
    (fst stored_row, snd stored_row).
Proof. split; [vm_compute; left; reflexivity | vm_compute; intros []]. Defined.

(** The row of the sample: username, password and notes are sealed under
    the key of draw 0, the URL, entered empty, and the fields not asked for
    are absent. *)
Lemma stored_row_value :
  stored_row =
  (1, {| Credential.name := "Gmail";
         Credential.url := None;
         Credential.username := Some "enc'[key](me)";
         Credential.password := Some "enc''[key](hunter2)";
         Credential.encrypted_key := "enc''''[vk(Secret123)](key)";
         Credential.token := None;
         Credential.recovery_key := None;
         Credential.primary_email := None;
         Credential.secondary_email := None;
         Credential.notes :=
           Some ("enc'''[key](line1" ++ CliUtils.newline ++ CliUtils.newline
                 ++ "line2)")%string |}).
Proof. reflexivity. Qed.

Lemma add_seals_fields_under_fresh_key_witness :
  created (db fresh_vault) (db (final (@add strict full tty fresh_vault)))
    (fst stored_row, snd stored_row) /\
  exists text,
    (opt_notes full = true -> notes_text tty = Some text) /\
    entropy fresh_vault < entropy (final (@add strict full tty fresh_vault)) /\
    (forall calls,
       entropy fresh_vault
       < entropy (snd (@adds strict calls
                         (final (@add strict full tty fresh_vault))))) /\
    (exists n,
       entropy fresh_vault < n
         < entropy (final (@add strict full tty fresh_vault)) /\
       Credential.encrypted_key (snd stored_row) =
         @encrypt strict n (@generate_fernet_key strict (entropy fresh_vault))
           (@derive_vault_key strict (master_passwd tty))) /\
    (forall f,
       @column_seals strict (column (snd stored_row) f)
         (entered full tty text f)
         (@generate_fernet_key strict (entropy fresh_vault))
         (entropy fresh_vault)
         (entropy (final (@add strict full tty fresh_vault)))).
Proof.
  split; [exact stored_row_created|].
  exact (@add_seals_fields_under_fresh_key strict full tty fresh_vault
           (fst stored_row) (snd stored_row) stored_row_created).
Defined.

Lemma add_absent_field_not_present_witness :
  (flag full Token = false /\
   created (db fresh_vault) (db (final (@add strict full tty fresh_vault)))
     (fst stored_row, snd stored_row)) /\
  column (snd stored_row) Token = None.
Proof.
  split; [split; [reflexivity | exact stored_row_created]|].
  apply (@add_absent_field_not_present strict full tty fresh_vault
           (fst stored_row) (snd stored_row) Token);
    [reflexivity | exact stored_row_created].
Defined.

Lemma add_empty_entry_not_present_witness :
  ((flag full Url = false \/ prompted tty Url = Some "") /\
   created (db fresh_vault) (db (final (@add strict full tty fresh_vault)))
     (fst stored_row, snd stored_row)) /\
  column (snd stored_row) Url = None.
Proof.
  split; [split; [right; reflexivity | exact stored_row_created]|].
  apply (@add_empty_entry_not_present strict full tty fresh_vault
           (fst stored_row) (snd stored_row) Url);
    [right; reflexivity | exact stored_row_created].
Defined.

Lemma add_without_vault_exits_witness :
  db_exists no_vault = false /\
  (result (@add strict gmail tty no_vault) = Exit 1%Z /\
   ~ In MasterPasswordPrompt (events (@add strict gmail tty no_vault)) /\
   committed (events (@add strict gmail tty no_vault)) = [] /\
   final (@add strict gmail tty no_vault) = no_vault).
Proof.
  split; [reflexivity|].
  apply (@add_without_vault_exits strict gmail tty no_vault). reflexivity.
Defined.

(** C7 as stated fails: two invocations that both request g1 both pass
    the check and both commit a credential row, which neither order of
    running one after the other produces; so it is even when the store
    serves the check and the first commit of each invocation together. *)
Lemma registration_not_atomic :
  ~ @registration_atomic strict (job_of "first" ["g1"])
      (job_of "second" ["g1"]) empty_db.
Proof.
  intros H. destruct (H flush_last) as [E | E].
  - reflexivity.
  - vm_compute in E. discriminate E.
  - vm_compute in E. discriminate E.
Qed.

Lemma both_pass_the_check :
  stage_left (@run_schedule strict (job_of "first" ["g1"])
                (job_of "second" ["g1"]) [Left; Right] (start empty_db))
  = AtAddCredential /\
  stage_right (@run_schedule strict (job_of "first" ["g1"])
                 (job_of "second" ["g1"]) [Left; Right] (start empty_db))
  = AtAddCredential.
Proof. vm_compute. split; reflexivity. Qed.

(** The loser of the race leaves its credential row behind. *)
Lemma race_loser_fails_at_the_flush :
  stage_left (@run_schedule strict (job_of "first" ["g1"])
                (job_of "second" ["g1"]) alternate (start empty_db))
  = Succeeded 1 /\
  stage_right (@run_schedule strict (job_of "first" ["g1"])
                 (job_of "second" ["g1"]) alternate (start empty_db))
  = Failed 2 /\
  length (credential_rows
            (store (@run_schedule strict (job_of "first" ["g1"])
                      (job_of "second" ["g1"]) alternate (start empty_db))))
  = 2.
Proof. vm_compute. repeat split. Qed.

(** Were the alias column not unique, both would succeed with g1. *)
Lemma without_unique_column_both_succeed :
  stage_left (@run_schedule lax (job_of "first" ["g1"])
                (job_of "second" ["g1"]) alternate (start empty_db))
  = Succeeded 1 /\
  stage_right (@run_schedule lax (job_of "first" ["g1"])
                 (job_of "second" ["g1"]) alternate (start empty_db))
  = Succeeded 2 /\
  mnemonic_names
    (store (@run_schedule lax (job_of "first" ["g1"])
              (job_of "second" ["g1"]) alternate (start empty_db)))
  = ["g1"; "g1"].
Proof. vm_compute. repeat split. Qed.

Lemma interleaved_adds_never_share_alias_witness :
  (@mnemonic_name_unique strict = true /\ alias_unique empty_db) /\
  (alias_unique
     (store (@run_schedule strict (job_of "first" ["g1"; "g2"])
               (job_of "second" ["g2"; "g3"]) alternate (start empty_db))) /\
   forall cl cr,
     stage_left (@run_schedule strict (job_of "first" ["g1"; "g2"])
                   (job_of "second" ["g2"; "g3"]) alternate (start empty_db))
       = Succeeded cl ->
     stage_right (@run_schedule strict (job_of "first" ["g1"; "g2"])
                    (job_of "second" ["g2"; "g3"]) alternate (start empty_db))
       = Succeeded cr ->
     forall m, In m (job_mnemonics (job_of "first" ["g1"; "g2"])) ->
               ~ In m (job_mnemonics (job_of "second" ["g2"; "g3"]))).
Proof.
  split; [split; [reflexivity | constructor]|].
  apply (@interleaved_adds_never_share_alias strict
           (job_of "first" ["g1"; "g2"]) (job_of "second" ["g2"; "g3"])
           empty_db alternate); [reflexivity | constructor].
Defined.

End Instances.

(** * Further properties *)

(** ** More on [multiline_input] *)

Section MultilineInputMore.
Import CliUtils.

Lemma triple_empty_at_app (pre l : list string) i :
  triple_empty_at (pre ++ l) (length pre + i) <-> triple_empty_at l i.
Proof.
  unfold triple_empty_at.
  replace (S (length pre + i)) with (length pre + S i) by lia.
  replace (S (length pre + S i)) with (length pre + S (S i)) by lia.
  rewrite !nth_error_app2 by lia.
  replace (length pre + i - length pre) with i by lia.
  replace (length pre + S i - length pre) with (S i) by lia.
  replace (length pre + S (S i) - length pre) with (S (S i)) by lia.
  tauto.
Qed.

Lemma triple_empty_at_prefix (pre l : list string) i :
  S (S i) < length pre ->
  triple_empty_at (pre ++ l) i <-> triple_empty_at pre i.
Proof.
  intros H. unfold triple_empty_at. rewrite !nth_error_app1 by lia. tauto.
Qed.

(** The loop returns only on input in which, with the [c] empty lines just
    read in front, three empty lines follow one another. *)
Lemma multiline_loop_some stdin : forall lines c out,
  multiline_loop stdin lines c = Some out ->
  exists i, triple_empty_at (repeat "" c ++ stdin) i.
Proof.
  induction stdin as [|line rest IH]; intros lines c out; cbn [multiline_loop];
    [discriminate|].
  destruct (String.eqb_spec line "") as [-> | Hne].
  - destruct (Nat.eqb_spec (S c) 3) as [E | E].
    + intros _. assert (c = 2) by lia. subst c. exists 0. repeat split.
    + intros H. destruct (IH _ _ _ H) as [i Hi]. exists i.
      now rewrite repeat_empty_snoc.
  - intros H. destruct (IH _ _ _ H) as [i Hi]. exists (length (repeat "" c ++ [line]) + i).
    replace (repeat "" c ++ line :: rest) with ((repeat "" c ++ [line]) ++ rest)
      by now rewrite <- app_assoc.
    now apply triple_empty_at_app.
Qed.

Lemma triple_empty_at_split l i :
  triple_empty_at l i ->
  l = firstn i l ++ [""; ""; ""] ++ skipn (i + 3) l.
Proof.
  revert l. induction i as [|i IH]; intros l H.
  - destruct l as [|a [|b [|c l]]]; destruct H as (A & B & D); try discriminate.
    cbn in A, B, D. injection A as ->. injection B as ->. injection D as ->.
    reflexivity.
  - destruct l as [|a l]; [destruct H as (A & _); discriminate|].
    apply triple_shift in H. cbn. f_equal. now apply IH.
Qed.

(** X1.  [multiline_input] raises [EOFError] exactly on input lines that
    nowhere hold three consecutive empty lines; on all other input it
    returns. *)
Theorem multiline_input_eof_iff stdin :
  multiline_input stdin = EOFError <-> ~ exists k, triple_empty_at stdin k.
Proof.
  unfold multiline_input. split.
  - intros H [k Hk].
    destruct (first_triple_exists stdin k Hk) as (i & Hi & Hmin).
    rewrite (multiline_loop_first_triple stdin [] 0 i) in H by (auto; lia).
    discriminate H.
  - intros H. destruct (multiline_loop stdin [] 0) as [[lines rest]|] eqn:E;
      [|reflexivity].
    exfalso. apply H. exact (multiline_loop_some stdin [] 0 _ E).
Qed.

Lemma ends_with_empty (pre : list string) :
  pre <> [] -> nth_error pre (length pre - 1) = Some "" ->
  exists l, pre = l ++ [""].
Proof.
  intros Hne H. destruct (exists_last Hne) as (l & a & ->).
  exists l. rewrite length_app in H. cbn in H.
  rewrite nth_error_app2 in H by lia.
  replace (length l + 1 - 1 - length l) with 0 in H by lia.
  cbn in H. now injection H as ->.
Qed.

(** X2.  Whatever [multiline_input] returns, the input was the lines of
    the text, then three empty lines, then the lines it leaves unread: the
    text is all the lines typed before the three empty ones, joined with
    newlines, nothing typed is dropped; and those lines hold no three
    consecutive empty lines and do not end with an empty line. *)
Theorem multiline_input_returns stdin text rest :
  multiline_input stdin = Returned text rest ->
  exists pre,
    stdin = pre ++ [""; ""; ""] ++ rest /\
    text = String.concat newline pre /\
    (forall k, ~ triple_empty_at pre k) /\
    (forall l, pre <> l ++ [""]).
Proof.
  intros H.
  assert (Hex : exists k, triple_empty_at stdin k).
  { unfold multiline_input in H.
    destruct (multiline_loop stdin [] 0) as [[lines r]|] eqn:E; [|discriminate].
    exact (multiline_loop_some stdin [] 0 _ E). }
  destruct Hex as [k Hk].
  destruct (first_triple_exists stdin k Hk) as (i & Hi & Hmin).
  rewrite (multiline_input_at_first_triple stdin i Hi Hmin) in H.
  injection H as <- <-.
  assert (Hlen : S (S i) < length stdin).
  { apply nth_error_Some. destruct Hi as (_ & _ & ->). discriminate. }
  exists (firstn i stdin). split; [now apply triple_empty_at_split|].
  split; [reflexivity|]. split.
  - intros j Hj.
    assert (Hj2 : S (S j) < length (firstn i stdin)).
    { apply nth_error_Some. destruct Hj as (_ & _ & ->). discriminate. }
    rewrite length_firstn in Hj2.
    apply (Hmin j); [lia|].
    rewrite <- (firstn_skipn i stdin).
    apply triple_empty_at_prefix; [rewrite length_firstn; lia | exact Hj].
  - intros l E.
    assert (Hl : length l + 1 = i).
    { apply (f_equal (@length string)) in E.
      rewrite length_firstn, length_app in E. cbn in E. lia. }
    apply (Hmin (length l)); [lia|].
    destruct Hi as (A & B & _).
    assert (E0 : nth_error stdin (length l) = Some "").
    { rewrite <- (firstn_skipn i stdin), E, nth_error_app1
        by (rewrite length_app; cbn; lia).
      rewrite nth_error_app2 by lia. now rewrite Nat.sub_diag. }
    subst i. repeat split; [exact E0 | |].
    + replace (S (length l)) with (length l + 1) by lia. exact A.
    + replace (S (S (length l))) with (S (length l + 1)) by lia. exact B.
Qed.

(** X3.  Every block of lines that holds no three consecutive empty lines
    and does not end with an empty line can be entered: typed and followed
    by three empty lines, it comes back joined with newlines, and what is
    typed after the three empty lines is left unread. *)
Theorem multiline_input_accepts pre rest :
  (forall k, ~ triple_empty_at pre k) ->
  (forall l, pre <> l ++ [""]) ->
  multiline_input (pre ++ [""; ""; ""] ++ rest)
  = Returned (String.concat newline pre) rest.
Proof.
  intros Hno Hend.
  assert (Hat : triple_empty_at (pre ++ [""; ""; ""] ++ rest) (length pre)).
  { replace (length pre) with (length pre + 0) by lia.
    apply triple_empty_at_app. repeat split. }
  rewrite (multiline_input_at_first_triple _ (length pre) Hat).
  - rewrite firstn_app, firstn_all, Nat.sub_diag. cbn [firstn].
    rewrite app_nil_r. rewrite skipn_app.
    rewrite skipn_all2 by lia.
    replace (length pre + 3 - length pre) with 3 by lia. reflexivity.
  - intros j Hj (A & B & D).
    destruct (Nat.lt_ge_cases (S (S j)) (length pre)) as [Hlt | Hge].
    + apply (Hno j). rewrite !nth_error_app1 in A, B, D by lia.
      repeat split; assumption.
    + assert (Hne : pre <> []) by (destruct pre; [cbn in Hj; lia | discriminate]).
      destruct (ends_with_empty pre Hne) as [l El]; [|exact (Hend l El)].
      assert (Hc : length pre - 1 = j \/ length pre - 1 = S j) by lia.
      destruct Hc as [<- | Hc].
      * rewrite nth_error_app1 in A by lia. exact A.
      * rewrite Hc. rewrite nth_error_app1 in B by lia. exact B.
Qed.

(** X4.  [multiline_input] reads no further than the three empty lines
    that end the text: with more lines typed behind, it returns the same
    text and leaves those lines unread too. *)
Theorem multiline_input_leaves_rest stdin text rest more :
  multiline_input stdin = Returned text rest ->
  multiline_input (stdin ++ more) = Returned text (rest ++ more).
Proof.
  intros H.
  assert (Hex : exists k, triple_empty_at stdin k).
  { unfold multiline_input in H.
    destruct (multiline_loop stdin [] 0) as [[lines r]|] eqn:E; [|discriminate].
    exact (multiline_loop_some stdin [] 0 _ E). }
  destruct Hex as [k Hk].
  destruct (first_triple_exists stdin k Hk) as (i & Hi & Hmin).
  rewrite (multiline_input_at_first_triple stdin i Hi Hmin) in H.
  injection H as <- <-.
  assert (Hlen : S (S i) < length stdin).
  { apply nth_error_Some. destruct Hi as (_ & _ & ->). discriminate. }
  rewrite (multiline_input_at_first_triple (stdin ++ more) i).
  - rewrite firstn_app, skipn_app.
    replace (i - length stdin) with 0 by lia.
    replace (i + 3 - length stdin) with 0 by lia.
    cbn [firstn skipn]. now rewrite app_nil_r.
  - apply triple_empty_at_prefix; assumption.
  - intros j Hj Hat. apply (Hmin j Hj).
    apply (triple_empty_at_prefix stdin more j); [lia | exact Hat].
Qed.

End MultilineInputMore.

Lemma prompts_app e1 e2 : prompts (e1 ++ e2) = prompts e1 ++ prompts e2.
Proof.
  induction e1 as [|e e1 IH]; [reflexivity|].
  destruct e; cbn; rewrite ?IH; reflexivity.
Qed.

(** ** More on the runs of [add] *)

Section Guard.
Context {C : Collaborators}.

(** X5.  [assert_db_init] is a guard for whatever command follows it: with
    the vault file in place the command runs as if the guard were not
    there; without it the command does not run at all, the process exits
    with status 1 after the two messages and the state is untouched. *)
Theorem assert_db_init_guards {B : Type} (k : M B) (w : World) :
  (assert_db_init ;; k) w =
  if db_exists w then k w
  else {| result := Exit 1%Z; final := w;
          events := [NoVaultPanel; InitHint] |}.
Proof.
  destruct (db_exists w) eqn:Hdb.
  - rewrite (bind_ok _ _ _ _ _ _ (assert_db_init_ok w Hdb)).
    apply prepend_nil.
  - now rewrite bind_run, (assert_db_init_exit w Hdb).
Qed.

Lemma prompt_fields_prompts req tty w :
  answered req tty ->
  prompts (events (prompt_fields req tty w)) = filter (flag req) prompt_order.
Proof.
  intros Ha.
  assert (HU := Ha Username). assert (HR := Ha Url).
  assert (HP := Ha PrimaryEmail). assert (HS := Ha SecondaryEmail). clear Ha.
  destruct req as [nm ms u p rk ur pe se tk nt];
    cbn [flag is_click opt_username opt_url opt_primary_email
         opt_secondary_email] in HU, HR, HP, HS.
  unfold prompt_fields, click_prompt, prompt_notes, flag, prompt_order;
    request_options.
  destruct nt;
    [destruct (CliUtils.multiline_input (stdin tty)) as [t rest|]|];
    settle_prompt u HU; settle_prompt ur HR; settle_prompt pe HP;
    settle_prompt se HS; destruct p, rk, tk; reflexivity.
Qed.

Lemma prompt_fields_silent req tty w :
  forall e, In e (events (prompt_fields req tty w)) ->
            is_prompt_event e = true.
Proof.
  intros e. apply prompt_events_only.
  exact (proj2 (prompt_fields_quiet req tty w)).
Qed.

Lemma seal_field_snd n x key :
  snd (seal_field n x key) = n + (if truthy x then 1 else 0).
Proof. unfold seal_field. destruct (truthy x); cbn; lia. Qed.

Lemma encrypt_credentials_draws name pw val w c n' :
  encrypt_credentials name pw val w =
    {| result := Ok c; final := set_entropy w n'; events := [] |} ->
  n' = entropy w + 2 + present val.
Proof.
  unfold encrypt_credentials.
  rewrite bind_run. cbn [draw result final events prepend].
  repeat (rewrite bind_run, encrypt_if_run; reduce_run).
  unfold encrypt_call. rewrite !bind_run. cbn.
  intros H. injection H as _ H. rewrite <- H.
  rewrite !seal_field_snd. unfold present, prompt_order. cbn [filter].
  destruct (truthy (val Username)), (truthy (val Password)), (truthy (val Url)),
    (truthy (val PrimaryEmail)), (truthy (val SecondaryEmail)),
    (truthy (val Token)), (truthy (val RecoveryKey)), (truthy (val Notes));
    cbn [length]; lia.
Qed.

(** An invocation on an existing vault, the master password verified and
    the prompts answered: the prompts, the encryption, then [persist]. *)
Lemma add_reaches_check req tty w text :
  db_exists w = true ->
  master_passwd_ok (master_passwd tty) = true ->
  answered req tty ->
  (opt_notes req = true -> notes_text tty = Some text) ->
  exists val c,
    (forall f, val f = entered req tty text f) /\
    encrypt_credentials (opt_name req) (master_passwd tty) val w =
      {| result := Ok c;
         final := set_entropy w (entropy w + 2 + present val);
         events := [] |} /\
    add req tty w =
      prepend ([BasicInfo; Rule; MasterPasswordPrompt]
               ++ events (prompt_fields req tty w))
        (persist (opt_mnemonics req) c
           (set_entropy w (entropy w + 2 + present val))).
Proof.
  intros Hdb Hok Ha Hn.
  destruct (prompt_fields_ok req tty w text Ha Hn)
    as (val & pevs & Hp & _ & Hv).
  destruct (encrypt_credentials_run (opt_name req) (master_passwd tty) val w)
    as (c & n' & Hc & _).
  exists val, c. split; [assumption|].
  rewrite <- (encrypt_credentials_draws _ _ _ _ _ _ Hc).
  split; [assumption|].
  unfold add. rewrite (add_guard_passed tty _ w Hdb Hok).
  rewrite (bind_ok _ _ _ _ _ _ Hp), (bind_ok _ _ _ _ _ _ Hc), Hp.
  unfold prepend; cbn [result final events app]. reflexivity.
Qed.

Lemma add_cut_short req tty w :
  db_exists w = true ->
  master_passwd_ok (master_passwd tty) = true ->
  answered req tty ->
  opt_notes req = true -> notes_text tty = None ->
  add req tty w =
    {| result := Raise EOF; final := w;
       events := [BasicInfo; Rule; MasterPasswordPrompt]
                 ++ events (prompt_fields req tty w) |}.
Proof.
  intros Hdb Hok Ha Hn Ht.
  destruct (prompt_fields_eof req tty w Ha Hn Ht) as (pevs & Hp & _).
  unfold add. rewrite (add_guard_passed tty _ w Hdb Hok), bind_run, Hp.
  reflexivity.
Qed.

(** The input ends at a [click.prompt]. *)
Lemma add_aborted req tty w :
  db_exists w = true ->
  master_passwd_ok (master_passwd tty) = true ->
  cut_short req tty ->
  add req tty w =
    {| result := Raise Abort; final := w;
       events := [BasicInfo; Rule; MasterPasswordPrompt]
                 ++ events (prompt_fields req tty w) |}.
Proof.
  intros Hdb Hok Hcut.
  destruct (prompt_fields_abort req tty w Hcut) as (pevs & Hp & _).
  unfold add. rewrite (add_guard_passed tty _ w Hdb Hok), bind_run, Hp.
  reflexivity.
Qed.

(** The master password is not the one of the vault. *)
Lemma add_refused req tty w :
  db_exists w = true ->
  master_passwd_ok (master_passwd tty) = false ->
  add req tty w =
    {| result := Raise AuthenticationError; final := w;
       events := [BasicInfo; Rule; MasterPasswordPrompt] |}.
Proof. intros Hdb Hok. unfold add. now apply add_guard_refused. Qed.

Lemma add_no_vault req tty w :
  db_exists w = false ->
  add req tty w =
    {| result := Exit 1%Z; final := w;
       events := [BasicInfo; NoVaultPanel; InitHint] |}.
Proof.
  intros Hdb. unfold add, print_basic_info.
  now rewrite emit_then, bind_run, (assert_db_init_exit w Hdb).
Qed.

Lemma persist_prompts ms c w : prompts (events (persist ms c w)) = [].
Proof.
  rewrite persist_run. destruct (check_mnemonics (db w) ms); [reflexivity|].
  unfold insert_credential. destruct (flush_mnemonics _ ms _); reflexivity.
Qed.

Lemma notes_text_cases req tty :
  (exists text, opt_notes req = true -> notes_text tty = Some text) \/
  (opt_notes req = true /\ notes_text tty = None).
Proof.
  destruct (opt_notes req); [|left; exists ""; discriminate].
  destruct (notes_text tty) as [text|]; [left; now exists text | now right].
Qed.

(** X6.  When every [click.prompt] of the request is answered, [add] on an
    existing vault whose master password is verified asks for exactly the
    fields whose flag is given, each once, in the order username, password,
    URL, primary email, secondary email, token, recovery key, notes,
    whether the notes are completed or not and whether the credential is
    stored or not; without a vault, or when the master password is refused,
    it asks for no field. *)
Theorem add_prompts_flagged_fields_in_order req tty w :
  answered req tty ->
  prompts (events (add req tty w)) =
  if db_exists w && master_passwd_ok (master_passwd tty)
  then filter (flag req) prompt_order
  else [].
Proof.
  intros Ha.
  destruct (db_exists w) eqn:Hdb; cbn [andb].
  - destruct (master_passwd_ok (master_passwd tty)) eqn:Hok.
    + pose proof (prompt_fields_prompts req tty w Ha) as Hp.
      destruct (notes_text_cases req tty) as [[text Hn] | [Hn Ht]].
      * destruct (add_reaches_check req tty w text Hdb Hok Ha Hn)
          as (val & c & _ & _ & ->).
        cbn [prepend events]. rewrite !prompts_app, persist_prompts, Hp.
        cbn. now rewrite app_nil_r.
      * rewrite (add_cut_short req tty w Hdb Hok Ha Hn Ht). cbn [events].
        now rewrite prompts_app, Hp.
    + now rewrite (add_refused req tty w Hdb Hok).
  - now rewrite (add_no_vault req tty w Hdb).
Qed.

End Guard.

Lemma insert_mnemonics_unchecked rows : forall table,
  insert_mnemonics false table rows = Some (table ++ rows).
Proof.
  induction rows as [|r rows IH]; cbn; intros table.
  - now rewrite app_nil_r.
  - now rewrite IH, <- app_assoc.
Qed.

Lemma insert_mnemonics_nodup rows : forall table table',
  insert_mnemonics true table rows = Some table' ->
  NoDup (map Mnemonic.name rows).
Proof.
  induction rows as [|r rows IH]; cbn; intros table table' H; [constructor|].
  destruct (mem _ _) eqn:E; [discriminate|].
  constructor; [|exact (IH _ _ H)].
  intros Hin. apply (insert_mnemonics_fresh _ _ _ H _ Hin).
  rewrite map_app. apply in_or_app. right. now left.
Qed.

Lemma present_ext val val' :
  (forall f, val f = val' f) -> present val = present val'.
Proof.
  intros H. unfold present. f_equal. apply filter_ext. intros f. now rewrite H.
Qed.

Section More.
Context {C : Collaborators}.

(** When the flush of the mnemonic rows goes through. *)
Lemma flush_mnemonics_goes d ms cid :
  (forall m, In m ms -> ~ In m (mnemonic_names d)) ->
  (exists d', flush_mnemonics d ms cid = Some d') <->
  (mnemonic_name_unique = false \/ NoDup ms).
Proof.
  intros Hfree. unfold flush_mnemonics. split.
  - intros [d' H]. destruct mnemonic_name_unique; [right | now left].
    destruct (insert_mnemonics true _ _) as [t|] eqn:E; [|discriminate].
    apply insert_mnemonics_nodup in E. now rewrite pending_names in E.
  - intros [Hu | Hnd].
    + rewrite Hu, insert_mnemonics_unchecked. now eexists.
    + rewrite insert_mnemonics_free; [now eexists | now rewrite pending_names |].
      rewrite pending_names. exact Hfree.
Qed.

Lemma flush_mnemonics_fails d ms cid :
  (forall m, In m ms -> ~ In m (mnemonic_names d)) ->
  flush_mnemonics d ms cid = None <->
  (mnemonic_name_unique = true /\ ~ NoDup ms).
Proof.
  intros Hfree. pose proof (flush_mnemonics_goes d ms cid Hfree) as G. split.
  - intros H. split.
    + destruct mnemonic_name_unique eqn:Hu; [reflexivity|].
      destruct (proj2 G (or_introl eq_refl)) as [d' Hd']. congruence.
    + intros Hnd. destruct (proj2 G (or_intror Hnd)) as [d' Hd']. congruence.
  - intros [Hu Hnd]. destruct (flush_mnemonics d ms cid) as [d'|];
      [|reflexivity].
    exfalso.
    destruct (proj1 G (ex_intro _ d' eq_refl)) as [H | H]; [congruence | auto].
Qed.

(** X8.  Once the vault exists, the master password is verified and the
    prompts are answered, an invocation draws from the random source once
    for the credential key, once for each field whose value is present and
    once to seal the key, and no more, whether the credential is stored in
    the end or not. *)
Theorem add_draws_per_present_field req tty w text :
  db_exists w = true ->
  master_passwd_ok (master_passwd tty) = true ->
  answered req tty ->
  (opt_notes req = true -> notes_text tty = Some text) ->
  entropy (final (add req tty w))
  = entropy w + 2 + present (entered req tty text).
Proof.
  intros Hdb Hok Ha Hn.
  destruct (add_reaches_check req tty w text Hdb Hok Ha Hn)
    as (val & c & Hv & _ & ->).
  cbn [prepend final]. rewrite persist_entropy. cbn [set_entropy entropy].
  now rewrite (present_ext _ _ Hv).
Qed.


(** X10.  The name of a credential is stored as given on the command
    line, not encrypted. *)
Theorem add_stores_name_as_given req tty w cid c :
  created (db w) (db (final (add req tty w))) (cid, c) ->
  Credential.name c = opt_name req.
Proof.
  intros [Hin Hnew].
  destruct (add_store_effect req tty w)
    as [_ Hf _ | text val c0 n' _ _ _ _ _ Hc _ Hsome Hnone].
  - rewrite (untouched_db _ _ _ Hf) in Hin. contradiction.
  - assert (Hrows : credential_rows (db (final (add req tty w)))
                    = credential_rows (db w) ++ [(next_id (db w), c0)]).
    { destruct (flush_mnemonics (snd (insert_credential (db w) c0))
                  (opt_mnemonics req) (next_id (db w))) as [d2|] eqn:Hf.
      - destruct (Hsome _ d2 eq_refl Hf) as (_ & -> & _).
        apply flush_mnemonics_some in Hf. now subst d2.
      - now destruct (Hnone _ eq_refl Hf) as (_ & -> & _). }
    rewrite Hrows in Hin.
    apply in_app_or in Hin as [Hin | [Hin | []]]; [contradiction|].
    injection Hin as _ <-.
    destruct (encrypt_credentials_run (opt_name req) (master_passwd tty) val w)
      as (c1 & n1 & Hc1 & _ & Hname & _).
    rewrite Hc in Hc1. now injection Hc1 as <- _.
Qed.

Lemma notes_text_none_iff tty :
  notes_text tty = None <->
  ~ exists k, CliUtils.triple_empty_at (stdin tty) k.
Proof.
  unfold notes_text. split.
  - intros H [k Hk].
    destruct (first_triple_exists (stdin tty) k Hk) as (i & Hi & Hmin).
    rewrite (multiline_input_at_first_triple (stdin tty) i Hi Hmin) in H.
    discriminate H.
  - intros H. unfold CliUtils.multiline_input.
    destruct (CliUtils.multiline_loop (stdin tty) [] 0) as [[lines rest]|]
      eqn:E; [|reflexivity].
    exfalso. apply H. exact (multiline_loop_some (stdin tty) [] 0 _ E).
Qed.

(** X11.  [add] ends with [EOFError] exactly when the vault exists, the
    master password is verified, every [click.prompt] of the request is
    answered, notes are asked for and the lines typed hold no three
    consecutive empty lines; the state is then what it was at the start. *)
Theorem add_eof_iff req tty w :
  (result (add req tty w) = Raise EOF <->
   db_exists w = true /\
   master_passwd_ok (master_passwd tty) = true /\
   answered req tty /\
   opt_notes req = true /\
   ~ exists k, CliUtils.triple_empty_at (stdin tty) k) /\
  (result (add req tty w) = Raise EOF -> final (add req tty w) = w).
Proof.
  rewrite <- notes_text_none_iff.
  destruct (db_exists w) eqn:Hdb;
    [destruct (master_passwd_ok (master_passwd tty)) eqn:Hok;
     [destruct (answered_or_cut_short req tty) as [Ha | Hcut]|]|].
  - destruct (notes_text_cases req tty) as [[text Hn] | [Hn Ht]].
    + destruct (add_reaches_check req tty w text Hdb Hok Ha Hn)
        as (val & c & _ & _ & Hrun).
      assert (Hne : result (add req tty w) <> Raise EOF).
      { rewrite Hrun, persist_run. cbn [prepend result].
        destruct (check_mnemonics _ _); [discriminate|].
        unfold insert_credential.
        destruct (flush_mnemonics _ _ _); discriminate. }
      split; [|intros H; contradiction].
      split; [intros H; contradiction|].
      intros (_ & _ & _ & Hf & Ht). rewrite (Hn Hf) in Ht. discriminate.
    + rewrite (add_cut_short req tty w Hdb Hok Ha Hn Ht). cbn. tauto.
  - rewrite (add_aborted req tty w Hdb Hok Hcut). cbn [result final].
    split; [|discriminate]. split; [discriminate|].
    intros (_ & _ & Ha & _).
    destruct (answered_not_cut_short req tty Ha Hcut).
  - rewrite (add_refused req tty w Hdb Hok). cbn [result final].
    split; [|discriminate].
    split; [discriminate | intros (_ & H & _); discriminate].
  - rewrite (add_no_vault req tty w Hdb). cbn. split; [|discriminate].
    split; [discriminate | intros (H & _); discriminate].
Qed.

(** X12.  [add] ends with [IntegrityError] exactly when the vault exists,
    the master password is verified, the prompts are answered, no requested
    mnemonic is in the store, the alias column is unique and the request
    gives some mnemonic more than once. *)
Theorem add_integrity_error_iff req tty w :
  result (add req tty w) = Raise IntegrityError <->
  db_exists w = true /\
  master_passwd_ok (master_passwd tty) = true /\
  answered req tty /\
  (opt_notes req = true -> notes_text tty <> None) /\
  (forall m, In m (opt_mnemonics req) -> ~ In m (mnemonic_names (db w))) /\
  mnemonic_name_unique = true /\
  ~ NoDup (opt_mnemonics req).
Proof.
  destruct (db_exists w) eqn:Hdb;
    [destruct (master_passwd_ok (master_passwd tty)) eqn:Hok;
     [destruct (answered_or_cut_short req tty) as [Ha | Hcut]|]|].
  - destruct (notes_text_cases req tty) as [[text Hn] | [Hn Ht]].
    + destruct (add_reaches_check req tty w text Hdb Hok Ha Hn)
        as (val & c & _ & _ & Hrun).
      rewrite Hrun, persist_run. cbn [prepend result db set_entropy].
      destruct (check_mnemonics (db w) (opt_mnemonics req)) as [m|] eqn:Hchk.
      * split; [discriminate|]. intros (_ & _ & _ & _ & Hfree & _).
        apply check_mnemonics_none in Hfree. congruence.
      * pose proof (proj1 (check_mnemonics_none _ _) Hchk) as Hfree.
        unfold insert_credential.
        pose proof (flush_mnemonics_fails
                      {| credential_rows :=
                           credential_rows (db w) ++ [(next_id (db w), c)];
                         mnemonic_rows := mnemonic_rows (db w) |}
                      (opt_mnemonics req) (next_id (db w)) Hfree) as F.
        destruct (flush_mnemonics _ _ _) as [d2|].
        -- split; [discriminate|]. intros (_ & _ & _ & _ & _ & Hu & Hnd).
           discriminate (proj2 F (conj Hu Hnd)).
        -- split; [|reflexivity]. intros _.
           destruct (proj1 F eq_refl) as [Hu Hnd].
           repeat split; auto. intros Hf. rewrite (Hn Hf). discriminate.
    + rewrite (add_cut_short req tty w Hdb Hok Ha Hn Ht). cbn.
      split; [discriminate|]. intros (_ & _ & _ & H & _). now destruct (H Hn).
  - rewrite (add_aborted req tty w Hdb Hok Hcut). cbn [result].
    split; [discriminate|]. intros (_ & _ & Ha & _).
    destruct (answered_not_cut_short req tty Ha Hcut).
  - rewrite (add_refused req tty w Hdb Hok). cbn [result].
    split; [discriminate | intros (_ & H & _); discriminate].
  - rewrite (add_no_vault req tty w Hdb). cbn.
    split; [discriminate | intros (H & _); discriminate].
Qed.


End More.

(** ** More on the store *)

Lemma extends_refl d : extends d d.
Proof. split; exists []; now rewrite app_nil_r. Qed.

Lemma extends_trans d1 d2 d3 : extends d1 d2 -> extends d2 d3 -> extends d1 d3.
Proof.
  intros [[c1 H1] [m1 H2]] [[c2 H3] [m2 H4]]. split.
  - exists (c1 ++ c2). now rewrite H3, H1, app_assoc.
  - exists (m1 ++ m2). now rewrite H4, H2, app_assoc.
Qed.

Lemma extends_names d d' m :
  extends d d' -> In m (mnemonic_names d) -> In m (mnemonic_names d').
Proof.
  intros [_ [ms H]] Hm. unfold mnemonic_names in *. rewrite H, map_app.
  apply in_or_app. now left.
Qed.

Section Store.
Context {C : Collaborators}.

(** The contents of the store an invocation goes through: the one it
    finds, then possibly that with the new credential row, then possibly
    that with the requested mnemonic rows. *)
Lemma add_store_shapes req tty w :
  (committed (events (add req tty w)) = [] /\
   db (final (add req tty w)) = db w) \/
  exists c,
    let d1 := {| credential_rows :=
                   credential_rows (db w) ++ [(next_id (db w), c)];
                 mnemonic_rows := mnemonic_rows (db w) |} in
    let d2 := {| credential_rows := credential_rows d1;
                 mnemonic_rows :=
                   mnemonic_rows (db w)
                   ++ pending_mnemonics (opt_mnemonics req)
                        (next_id (db w)) |} in
    (committed (events (add req tty w)) = [d1] /\
     db (final (add req tty w)) = d1) \/
    (committed (events (add req tty w)) = [d1; d2] /\
     db (final (add req tty w)) = d2).
Proof.
  destruct (add_store_effect req tty w)
    as [Hc Hf _ | text val c n' _ _ _ _ _ _ _ Hsome Hnone].
  - left. split; [assumption | now apply untouched_db].
  - right. exists c.
    destruct (flush_mnemonics (snd (insert_credential (db w) c))
                (opt_mnemonics req) (next_id (db w))) as [d2|] eqn:Hf.
    + right. destruct (Hsome _ d2 eq_refl Hf) as (H1 & H2 & _).
      rewrite H1, H2. apply flush_mnemonics_some in Hf. subst d2.
      split; reflexivity.
    + left. destruct (Hnone _ eq_refl Hf) as (H1 & H2 & _).
      rewrite H1, H2. split; reflexivity.
Qed.

Lemma add_extends req tty w :
  Forall (extends (db w)) (committed (events (add req tty w))) /\
  extends (db w) (db (final (add req tty w))).
Proof.
  destruct (add_store_shapes req tty w) as [[-> ->] | [c H]].
  { split; [constructor | apply extends_refl]. }
  cbv zeta in H.
  assert (E1 : extends (db w)
                 {| credential_rows :=
                      credential_rows (db w) ++ [(next_id (db w), c)];
                    mnemonic_rows := mnemonic_rows (db w) |}).
  { split; cbn; [now eexists | exists []; now rewrite app_nil_r]. }
  assert (E2 : extends (db w)
                 {| credential_rows :=
                      credential_rows (db w) ++ [(next_id (db w), c)];
                    mnemonic_rows :=
                      mnemonic_rows (db w)
                      ++ pending_mnemonics (opt_mnemonics req)
                           (next_id (db w)) |}).
  { split; cbn; now eexists. }
  destruct H as [[-> ->] | [-> ->]].
  - split; [constructor; [assumption | constructor] | assumption].
  - split; [|assumption].
    constructor; [assumption|]. constructor; [assumption | constructor].
Qed.

(** X16.  [add] only appends: through any sequence of invocations, every
    committed content of the store and the content at the end hold the
    credential rows and the mnemonic rows of the start, unchanged and in
    their places, with new rows behind them. *)
Theorem adds_only_append calls : forall w,
  Forall (extends (db w)) (committed (fst (adds calls w))) /\
  extends (db w) (db (snd (adds calls w))).
Proof.
  induction calls as [|[req tty] calls IH]; intros w; cbn [adds].
  - split; [constructor | apply extends_refl].
  - destruct (add_extends req tty w) as [H1 H2].
    destruct (IH (final (add req tty w))) as [H3 H4].
    destruct (adds calls (final (add req tty w))) as [evs w'].
    cbn [fst snd] in *. rewrite committed_app. split.
    + apply Forall_app. split; [assumption|].
      eapply Forall_impl; [|exact H3]. intros d. now apply extends_trans.
    + now apply extends_trans with (db (final (add req tty w))).
Qed.

Lemma adds_keep_names calls : forall w m,
  In m (mnemonic_names (db w)) ->
  In m (mnemonic_names (db (snd (adds calls w)))).
Proof.
  induction calls as [|[req tty] calls IH]; intros w m Hm; cbn [adds];
    [assumption|].
  specialize (IH (final (add req tty w)) m).
  destruct (adds calls (final (add req tty w))) as [evs w'].
  cbn [snd] in *. apply IH.
  apply (extends_names (db w)); [apply add_extends | assumption].
Qed.

Lemma add_referential req tty w :
  referential (db w) ->
  Forall referential (committed (events (add req tty w))) /\
  referential (db (final (add req tty w))).
Proof.
  intros Hw.
  destruct (add_store_shapes req tty w) as [[-> ->] | [c H]].
  { split; [constructor | assumption]. }
  cbv zeta in H.
  assert (R1 : referential
                 {| credential_rows :=
                      credential_rows (db w) ++ [(next_id (db w), c)];
                    mnemonic_rows := mnemonic_rows (db w) |}).
  { intros row Hrow. cbn in *. rewrite map_app. apply in_or_app. left.
    now apply Hw. }
  assert (R2 : referential
                 {| credential_rows :=
                      credential_rows (db w) ++ [(next_id (db w), c)];
                    mnemonic_rows :=
                      mnemonic_rows (db w)
                      ++ pending_mnemonics (opt_mnemonics req)
                           (next_id (db w)) |}).
  { intros row Hrow. cbn in *. rewrite map_app. apply in_or_app.
    apply in_app_or in Hrow as [Hrow | Hrow]; [left; now apply Hw|].
    right. unfold pending_mnemonics in Hrow. apply in_map_iff in Hrow.
    destruct Hrow as (m & <- & _). cbn. now left. }
  destruct H as [[-> ->] | [-> ->]].
  - split; [constructor; [assumption | constructor] | assumption].
  - split; [|assumption].
    constructor; [assumption|]. constructor; [assumption | constructor].
Qed.

(** X17.  No sequence of invocations leaves a mnemonic row without its
    credential: if every mnemonic row points to a credential row of the
    store at the start, so it is in every committed content and at the
    end. *)
Theorem adds_keep_mnemonics_attached calls : forall w,
  referential (db w) ->
  Forall referential (committed (fst (adds calls w))) /\
  referential (db (snd (adds calls w))).
Proof.
  induction calls as [|[req tty] calls IH]; intros w Hw; cbn [adds].
  - split; [constructor | assumption].
  - destruct (add_referential req tty w Hw) as [H1 H2].
    destruct (IH (final (add req tty w)) H2) as [H3 H4].
    destruct (adds calls (final (add req tty w))) as [evs w'].
    cbn [fst snd] in *. rewrite committed_app. split; [|assumption].
    apply Forall_app. now split.
Qed.

(** X18.  A mnemonic that is in the store stays taken: after any sequence
    of invocations it is still there, and an invocation that requests it
    commits nothing and leaves the store as it finds it. *)
Theorem alias_stays_taken calls w req tty m :
  In m (mnemonic_names (db w)) ->
  In m (opt_mnemonics req) ->
  let w' := snd (adds calls w) in
  In m (mnemonic_names (db w')) /\
  db (final (add req tty w')) = db w' /\
  committed (events (add req tty w')) = [].
Proof.
  intros Hm Hreq. cbv zeta.
  assert (Hm' : In m (mnemonic_names (db (snd (adds calls w))))).
  { now apply adds_keep_names. }
  split; [assumption|].
  destruct (add_store_effect req tty (snd (adds calls w)))
    as [Hc Hf _ | text val c n' _ _ _ _ _ _ Hchk _ _].
  - split; [now apply untouched_db | assumption].
  - exfalso. exact (proj1 (check_mnemonics_none _ _) Hchk m Hreq Hm').
Qed.

(** X19.  For requests that give no mnemonic twice the check of [add]
    alone keeps the aliases unique, whether the alias column is declared
    unique or not: through any sequence of such invocations, from a store
    with unique aliases, every committed content and the content at the end
    have unique aliases. *)
Theorem adds_without_repetition_keep_aliases_unique calls : forall w,
  Forall (fun call => NoDup (opt_mnemonics (fst call))) calls ->
  alias_unique (db w) ->
  Forall alias_unique (committed (fst (adds calls w))) /\
  alias_unique (db (snd (adds calls w))).
Proof.
  induction calls as [|[req tty] calls IH]; intros w Hnd Hw; cbn [adds].
  - split; [constructor | assumption].
  - inversion Hnd as [|? ? Hreq Hrest]; subst. cbn [fst] in Hreq.
    destruct (add_without_repetition_keeps_aliases_unique req tty w Hreq Hw)
      as [H1 H2].
    destruct (IH (final (add req tty w)) Hrest H2) as [H3 H4].
    destruct (adds calls (final (add req tty w))) as [evs w'].
    cbn [fst snd] in *. rewrite committed_app. split; [|assumption].
    apply Forall_app. now split.
Qed.

End Store.

(** X15.  The query, the set and the loop of the check amount to this: the
    check passes exactly when no requested mnemonic is among the aliases of
    the store, and otherwise it stops at the first requested mnemonic, in
    the order of the request, that is. *)
Theorem check_mnemonics_finds_first d ms :
  (check_mnemonics d ms = None <->
   forall m, In m ms -> ~ In m (mnemonic_names d)) /\
  (forall m, check_mnemonics d ms = Some m ->
   exists before after,
     ms = before ++ m :: after /\ In m (mnemonic_names d) /\
     forall x, In x before -> ~ In x (mnemonic_names d)).
Proof.
  split; [apply check_mnemonics_none | apply check_mnemonics_some].
Qed.

(** ** Invocations that have no mnemonic in common *)

Section Apart.
Context {C : Collaborators}.

Lemma stage_step_free job st d :
  NoDup (job_mnemonics job) ->
  (succeeded st = false ->
   forall m, In m (job_mnemonics job) -> ~ In m (mnemonic_names d)) ->
  running st ->
  running (fst (stage_step job st d)) /\
  ((succeeded (fst (stage_step job st d)) = succeeded st /\
    mnemonic_names (snd (stage_step job st d)) = mnemonic_names d) \/
   (succeeded st = false /\
    succeeded (fst (stage_step job st d)) = true /\
    mnemonic_names (snd (stage_step job st d))
    = mnemonic_names d ++ job_mnemonics job)).
Proof.
  intros Hnd Hfree Hrun. destruct st; cbn [stage_step]; try contradiction.
  - rewrite (proj2 (check_mnemonics_none d (job_mnemonics job)) (Hfree eq_refl)).
    cbn. auto.
  - unfold insert_credential. cbn. auto.
  - specialize (Hfree eq_refl).
    destruct (proj2 (flush_mnemonics_goes d (job_mnemonics job) cid Hfree)
                (or_intror Hnd)) as [d' Hd'].
    rewrite Hd'. cbn. split; [exact I|]. right.
    apply flush_mnemonics_some in Hd'. subst d'.
    unfold mnemonic_names. cbn. now rewrite map_app, pending_names.
  - cbn. auto.
Qed.

Lemma sys_step_unhindered jl jr d0 who s :
  NoDup (job_mnemonics jl) -> NoDup (job_mnemonics jr) ->
  (forall m, In m (job_mnemonics jl) -> ~ In m (mnemonic_names d0)) ->
  (forall m, In m (job_mnemonics jr) -> ~ In m (mnemonic_names d0)) ->
  (forall m, In m (job_mnemonics jl) -> ~ In m (job_mnemonics jr)) ->
  Unhindered jl jr d0 s -> Unhindered jl jr d0 (sys_step jl jr who s).
Proof.
  intros Nl Nr Fl Fr Dis [I1 I2 I3 I4 I5]. destruct who; cbn [sys_step].
  - assert (Hfree : succeeded (stage_left s) = false ->
              forall m, In m (job_mnemonics jl) ->
                        ~ In m (mnemonic_names (store s))).
    { intros Hs m Hm Hin.
      destruct (I1 m Hin) as [H | [[H _] | [_ H]]];
        [exact (Fl m Hm H) | congruence | exact (Dis m Hm H)]. }
    destruct (stage_step_free jl (stage_left s) (store s) Nl Hfree I2)
      as [R H].
    destruct (stage_step jl (stage_left s) (store s)) as [st d].
    cbn [fst snd] in R, H.
    constructor; cbn [store stage_left stage_right]; try assumption.
    + intros x Hx. destruct H as [[Hs Hn] | (Hs & Hs' & Hn)].
      * rewrite Hn in Hx. rewrite Hs. auto.
      * rewrite Hn in Hx. apply in_app_or in Hx as [Hx | Hx]; [|auto].
        destruct (I1 x Hx) as [H | [[H _] | H]]; [auto | congruence | auto].
    + intros Hst m Hm. destruct H as [[Hs Hn] | (Hs & Hs' & Hn)].
      * rewrite Hn. apply I4; [congruence | assumption].
      * rewrite Hn. apply in_or_app. now right.
    + intros Hst m Hm. specialize (I5 Hst m Hm).
      destruct H as [[Hs Hn] | (Hs & Hs' & Hn)]; rewrite Hn;
        [assumption | apply in_or_app; now left].
  - assert (Hfree : succeeded (stage_right s) = false ->
              forall m, In m (job_mnemonics jr) ->
                        ~ In m (mnemonic_names (store s))).
    { intros Hs m Hm Hin.
      destruct (I1 m Hin) as [H | [[_ H] | [H _]]];
        [exact (Fr m Hm H) | exact (Dis m H Hm) | congruence]. }
    destruct (stage_step_free jr (stage_right s) (store s) Nr Hfree I3)
      as [R H].
    destruct (stage_step jr (stage_right s) (store s)) as [st d].
    cbn [fst snd] in R, H.
    constructor; cbn [store stage_left stage_right]; try assumption.
    + intros x Hx. destruct H as [[Hs Hn] | (Hs & Hs' & Hn)].
      * rewrite Hn in Hx. rewrite Hs. auto.
      * rewrite Hn in Hx. apply in_app_or in Hx as [Hx | Hx]; [|auto].
        destruct (I1 x Hx) as [H | [H | [H _]]]; [auto | auto | congruence].
    + intros Hst m Hm. specialize (I4 Hst m Hm).
      destruct H as [[Hs Hn] | (Hs & Hs' & Hn)]; rewrite Hn;
        [assumption | apply in_or_app; now left].
    + intros Hst m Hm. destruct H as [[Hs Hn] | (Hs & Hs' & Hn)].
      * rewrite Hn. apply I5; [congruence | assumption].
      * rewrite Hn. apply in_or_app. now right.
Qed.

Lemma run_schedule_unhindered jl jr d0 schedule : forall s,
  NoDup (job_mnemonics jl) -> NoDup (job_mnemonics jr) ->
  (forall m, In m (job_mnemonics jl) -> ~ In m (mnemonic_names d0)) ->
  (forall m, In m (job_mnemonics jr) -> ~ In m (mnemonic_names d0)) ->
  (forall m, In m (job_mnemonics jl) -> ~ In m (job_mnemonics jr)) ->
  Unhindered jl jr d0 s ->
  Unhindered jl jr d0 (run_schedule jl jr schedule s).
Proof.
  induction schedule as [|who rest IH]; intros s Nl Nr Fl Fr Dis Hs;
    cbn [run_schedule]; [assumption|].
  apply IH; try assumption. now apply sys_step_unhindered.
Qed.

(** X20.  Two invocations do not get in each other's way when their
    mnemonics are new, repeat nothing and have nothing in common: in
    whatever order the store serves their operations, once both are through
    both have succeeded and all their mnemonics are in the store. *)
Theorem separate_adds_both_succeed jl jr d0 schedule :
  NoDup (job_mnemonics jl) -> NoDup (job_mnemonics jr) ->
  (forall m, In m (job_mnemonics jl) -> ~ In m (mnemonic_names d0)) ->
  (forall m, In m (job_mnemonics jr) -> ~ In m (mnemonic_names d0)) ->
  (forall m, In m (job_mnemonics jl) -> ~ In m (job_mnemonics jr)) ->
  finished (run_schedule jl jr schedule (start d0)) = true ->
  let s := run_schedule jl jr schedule (start d0) in
  succeeded (stage_left s) = true /\
  succeeded (stage_right s) = true /\
  (forall m, In m (job_mnemonics jl) \/ In m (job_mnemonics jr) ->
             In m (mnemonic_names (store s))).
Proof.
  intros Nl Nr Fl Fr Dis Hfin. cbv zeta.
  assert (H0 : Unhindered jl jr d0 (start d0)).
  { constructor; cbn; auto; discriminate. }
  destruct (run_schedule_unhindered jl jr d0 schedule _ Nl Nr Fl Fr Dis H0)
    as [_ I2 I3 I4 I5].
  unfold finished in Hfin. apply andb_prop in Hfin as [Hl Hr].
  assert (Sl : succeeded (stage_left (run_schedule jl jr schedule (start d0))) = true).
  { destruct (stage_left _); cbn in *; try discriminate; try contradiction;
      reflexivity. }
  assert (Sr : succeeded (stage_right (run_schedule jl jr schedule (start d0))) = true).
  { destruct (stage_right _); cbn in *; try discriminate; try contradiction;
      reflexivity. }
  split; [assumption|]. split; [assumption|].
  intros m [Hm | Hm]; auto.
Qed.

End Apart.

Section Success.
Context {C : Collaborators}.


Lemma persist_never_asks ms c w :
  ~ In MasterPasswordPrompt (events (persist ms c w)).
Proof.
  rewrite persist_run. destruct (check_mnemonics (db w) ms).
  - intros [H | []]; discriminate.
  - unfold insert_credential. destruct (flush_mnemonics _ ms _); cbn;
      intuition discriminate.
Qed.

(** X7.  On an existing vault the master password is asked for first,
    before any field, and only once. *)
Theorem add_asks_master_password_once req tty w :
  db_exists w = true ->
  exists rest,
    events (add req tty w) = [BasicInfo; Rule; MasterPasswordPrompt] ++ rest /\
    ~ In MasterPasswordPrompt rest.
Proof.
  intros Hdb.
  assert (Hq : ~ In MasterPasswordPrompt (events (prompt_fields req tty w))).
  { intros H. apply prompt_fields_silent in H. discriminate. }
  destruct (master_passwd_ok (master_passwd tty)) eqn:Hok;
    [destruct (answered_or_cut_short req tty) as [Ha | Hcut]|].
  - destruct (notes_text_cases req tty) as [[text Hn] | [Hn Ht]].
    + destruct (add_reaches_check req tty w text Hdb Hok Ha Hn)
        as (val & c & _ & _ & ->).
      cbn [prepend events]. rewrite <- app_assoc.
      eexists. split; [reflexivity|].
      intros H. apply in_app_or in H as [H | H]; [now apply Hq|].
      now apply persist_never_asks in H.
    + rewrite (add_cut_short req tty w Hdb Hok Ha Hn Ht). cbn [events].
      eexists. split; [reflexivity | exact Hq].
  - rewrite (add_aborted req tty w Hdb Hok Hcut). cbn [events].
    eexists. split; [reflexivity | exact Hq].
  - rewrite (add_refused req tty w Hdb Hok). cbn [events].
    exists []. split; [reflexivity | intros []].
Qed.

End Success.

(** ** More worked instances *)

Section MoreInstances.
Import Sample.

Ltac two_names_differ :=
  repeat match goal with
         | H : In _ (_ :: _) |- _ => destruct H as [H | H]
         | H : In _ [] |- _ => destruct H
         | H : _ \/ _ |- _ => destruct H as [H | H]
         | H : _ = _ |- _ => discriminate H
         | H : False |- _ => destruct H
         end.

Lemma tty_notes_returned :
  CliUtils.multiline_input (stdin tty) = CliUtils.Returned notes ["unread"].
Proof. reflexivity. Defined.

Lemma typed_notes_no_triple :
  forall k, ~ CliUtils.triple_empty_at typed_notes k.
Proof.
  intros k (A & B & D).
  destruct k as [|[|[|k]]]; [discriminate A | discriminate B | discriminate A|].
  destruct k; discriminate A.
Defined.

Lemma typed_notes_end :
  forall l, typed_notes <> l ++ [""].
Proof.
  intros l E. apply (f_equal (@rev string)) in E.
  rewrite rev_app_distr in E. discriminate E.
Defined.

Lemma multiline_input_returns_witness :
  CliUtils.multiline_input (stdin tty) = CliUtils.Returned notes ["unread"] /\
  exists pre,
    stdin tty = pre ++ [""; ""; ""] ++ ["unread"] /\
    notes = String.concat CliUtils.newline pre /\
    (forall k, ~ CliUtils.triple_empty_at pre k) /\
    (forall l, pre <> l ++ [""]).
Proof.
  split; [exact tty_notes_returned|].
  exact (multiline_input_returns (stdin tty) notes ["unread"]
           tty_notes_returned).
Defined.

Lemma multiline_input_accepts_witness :
  ((forall k, ~ CliUtils.triple_empty_at typed_notes k) /\
   (forall l, typed_notes <> l ++ [""])) /\
  CliUtils.multiline_input (typed_notes ++ [""; ""; ""] ++ ["unread"])
  = CliUtils.Returned (String.concat CliUtils.newline typed_notes) ["unread"].
Proof.
  split; [split; [exact typed_notes_no_triple | exact typed_notes_end]|].
  exact (multiline_input_accepts typed_notes ["unread"]
           typed_notes_no_triple typed_notes_end).
Defined.

Lemma multiline_input_leaves_rest_witness :
  CliUtils.multiline_input (stdin tty) = CliUtils.Returned notes ["unread"] /\
  CliUtils.multiline_input (stdin tty ++ ["more"; ""])
  = CliUtils.Returned notes (["unread"] ++ ["more"; ""]).
Proof.
  split; [exact tty_notes_returned|].
  exact (multiline_input_leaves_rest (stdin tty) notes ["unread"]
           ["more"; ""] tty_notes_returned).
Defined.

(** A wrong master password: the invocation ends with
    [AuthenticationError] before any field is asked for, and the store
    stays empty. *)
Lemma wrong_password_refused :
  @add strict full wrong_tty fresh_vault =
  {| result := Raise AuthenticationError; final := fresh_vault;
     events := [BasicInfo; Rule; MasterPasswordPrompt] |}.
Proof. reflexivity. Qed.

(** The input ends at the prompt for the URL: the invocation ends with
    [Abort] there, the notes are not asked for and nothing is stored. *)
Lemma input_end_aborts :
  @add strict full cut_tty fresh_vault =
  {| result := Raise Abort; final := fresh_vault;
     events := [BasicInfo; Rule; MasterPasswordPrompt; Prompt Username;
                Prompt Password; AddedPanel Password; Prompt Url] |}.
Proof. reflexivity. Qed.

Lemma full_notes_typed :
  opt_notes full = true -> notes_text tty = Some notes.
Proof. intros _. reflexivity. Defined.

Lemma add_asks_master_password_once_witness :
  db_exists fresh_vault = true /\
  exists rest,
    events (@add strict full tty fresh_vault)
    = [BasicInfo; Rule; MasterPasswordPrompt] ++ rest /\
    ~ In MasterPasswordPrompt rest.
Proof.
  split; [reflexivity|].
  exact (@add_asks_master_password_once strict full tty fresh_vault eq_refl).
Defined.

(** X6 at work: the username, the password, the URL and the notes are
    asked for, in this order. *)
Lemma add_prompts_flagged_fields_in_order_witness :
  answered full tty /\
  prompts (events (@add strict full tty fresh_vault))
  = [Username; Password; Url; Notes].
Proof.
  split; [exact (tty_answered full)|].
  exact (@add_prompts_flagged_fields_in_order strict full tty fresh_vault
           (tty_answered full)).
Defined.

Lemma add_draws_per_present_field_witness :
  (db_exists fresh_vault = true /\
   @master_passwd_ok strict (master_passwd tty) = true /\
   answered full tty /\
   (opt_notes full = true -> notes_text tty = Some notes)) /\
  entropy (final (@add strict full tty fresh_vault))
  = entropy fresh_vault + 2 + present (entered full tty notes).
Proof.
  split;
    [split; [reflexivity | split; [exact tty_verified | split;
       [exact (tty_answered full) | exact full_notes_typed]]]|].
  exact (@add_draws_per_present_field strict full tty fresh_vault notes
           eq_refl tty_verified (tty_answered full) full_notes_typed).
Defined.


Lemma add_stores_name_as_given_witness :
  created (db fresh_vault) (db (final (@add strict full tty fresh_vault)))
    (fst stored_row, snd stored_row) /\
  Credential.name (snd stored_row) = opt_name full.
Proof.
  split; [exact stored_row_created|].
  exact (@add_stores_name_as_given strict full tty fresh_vault
           (fst stored_row) (snd stored_row) stored_row_created).
Defined.




Lemma fresh_vault_referential : referential (db fresh_vault).
Proof. intros row []. Defined.

Lemma adds_keep_mnemonics_attached_witness :
  referential (db fresh_vault) /\
  (Forall referential (committed (fst (@adds strict calls fresh_vault))) /\
   referential (db (snd (@adds strict calls fresh_vault)))).
Proof.
  split; [exact fresh_vault_referential|].
  exact (@adds_keep_mnemonics_attached strict calls fresh_vault
           fresh_vault_referential).
Defined.

Lemma alias_stays_taken_witness :
  (In "g1" (mnemonic_names (db vault_g1)) /\ In "g1" (opt_mnemonics gmail)) /\
  (In "g1" (mnemonic_names (db (snd (@adds strict calls vault_g1)))) /\
   db (final (@add strict gmail tty (snd (@adds strict calls vault_g1))))
   = db (snd (@adds strict calls vault_g1)) /\
   committed
     (events (@add strict gmail tty (snd (@adds strict calls vault_g1))))
   = []).
Proof.
  assert (H1 : In "g1" (mnemonic_names (db vault_g1))) by (simpl; auto).
  assert (H2 : In "g1" (opt_mnemonics gmail)) by (simpl; auto).
  split; [split; assumption|].
  exact (@alias_stays_taken strict calls vault_g1 gmail tty "g1" H1 H2).
Defined.

Lemma separate_calls_repeat_nothing :
  Forall (fun call => NoDup (opt_mnemonics (fst call))) separate_calls.
Proof.
  repeat constructor; simpl; intros H; two_names_differ.
Defined.

Lemma adds_without_repetition_keep_aliases_unique_witness :
  (Forall (fun call => NoDup (opt_mnemonics (fst call))) separate_calls /\
   alias_unique (db fresh_vault)) /\
  (Forall alias_unique
     (committed (fst (@adds lax separate_calls fresh_vault))) /\
   alias_unique (db (snd (@adds lax separate_calls fresh_vault)))).
Proof.
  split; [split; [exact separate_calls_repeat_nothing | constructor]|].
  apply (@adds_without_repetition_keep_aliases_unique lax separate_calls
           fresh_vault); [exact separate_calls_repeat_nothing | constructor].
Defined.

Lemma separate_jobs :
  NoDup (job_mnemonics (job_of "first" ["g1"; "g2"])) /\
  NoDup (job_mnemonics (job_of "second" ["g3"])) /\
  (forall m, In m (job_mnemonics (job_of "first" ["g1"; "g2"])) ->
             ~ In m (mnemonic_names empty_db)) /\
  (forall m, In m (job_mnemonics (job_of "second" ["g3"])) ->
             ~ In m (mnemonic_names empty_db)) /\
  (forall m, In m (job_mnemonics (job_of "first" ["g1"; "g2"])) ->
             ~ In m (job_mnemonics (job_of "second" ["g3"]))).
Proof.
  split; [repeat constructor; simpl; intros H; two_names_differ|].
  split; [repeat constructor; simpl; intros H; two_names_differ|].
  split; [intros m _ []|]. split; [intros m _ []|].
  simpl. intros m H H'. two_names_differ; subst; discriminate.
Defined.

Lemma separate_adds_both_succeed_witness :
  (NoDup (job_mnemonics (job_of "first" ["g1"; "g2"])) /\
   NoDup (job_mnemonics (job_of "second" ["g3"])) /\
   (forall m, In m (job_mnemonics (job_of "first" ["g1"; "g2"])) ->
              ~ In m (mnemonic_names empty_db)) /\
   (forall m, In m (job_mnemonics (job_of "second" ["g3"])) ->
              ~ In m (mnemonic_names empty_db)) /\
   (forall m, In m (job_mnemonics (job_of "first" ["g1"; "g2"])) ->
              ~ In m (job_mnemonics (job_of "second" ["g3"])))) /\
  finished (@run_schedule lax (job_of "first" ["g1"; "g2"])
              (job_of "second" ["g3"]) alternate (start empty_db)) = true /\
  (succeeded
     (stage_left (@run_schedule lax (job_of "first" ["g1"; "g2"])
                    (job_of "second" ["g3"]) alternate (start empty_db)))
   = true /\
   succeeded
     (stage_right (@run_schedule lax (job_of "first" ["g1"; "g2"])
                     (job_of "second" ["g3"]) alternate (start empty_db)))
   = true /\
   forall m,
     In m (job_mnemonics (job_of "first" ["g1"; "g2"])) \/
     In m (job_mnemonics (job_of "second" ["g3"])) ->
     In m (mnemonic_names
             (store (@run_schedule lax (job_of "first" ["g1"; "g2"])
                       (job_of "second" ["g3"]) alternate
                       (start empty_db))))).
Proof.
  split; [exact separate_jobs|]. split; [reflexivity|].
  destruct separate_jobs as (N1 & N2 & F1 & F2 & D).
  exact (@separate_adds_both_succeed lax (job_of "first" ["g1"; "g2"])
           (job_of "second" ["g3"]) empty_db alternate N1 N2 F1 F2 D
           eq_refl).
Defined.

End MoreInstances.
